(** * The offline-caching service worker (sw.js), embedded in Rocq

    The worker is event-driven JavaScript: three listeners (install,
    activate, fetch) that build promise chains over the platform's
    CacheStorage and fetch.  The embedding keeps that shape:

    - values are dynamically typed ([value]);
    - the synchronous part of every listener and of every arrow function
      is a computation in a state monad [M] over the [machine];
    - arrow functions are defunctionalised: one [closure] constructor per
      arrow function of the source, carrying its captured variables;
    - the platform (promise table, microtask queue, CacheStorage, network)
      is the [machine]; the environment decides, move by move, which
      operation in flight completes and what the network answers. *)

From Stdlib Require Import String Ascii ZArith List.
From stdpp Require Import gmap strings list fin_maps.
Import ListNotations.
Local Open Scope string_scope.

(** ** Strings: the three tests the router uses *)

(** [String.prototype.startsWith] *)
Fixpoint starts_with (s p : string) {struct p} : bool :=
  match p with
  | EmptyString => true
  | String c p' =>
      match s with
      | EmptyString => false
      | String d s' => Ascii.eqb c d && starts_with s' p'
      end
  end.

(** [String.prototype.endsWith] *)
Fixpoint ends_with (s suf : string) : bool :=
  String.eqb s suf ||
  match s with
  | EmptyString => false
  | String _ s' => ends_with s' suf
  end.

(** [String.prototype.includes] *)
Fixpoint includes (s t : string) : bool :=
  starts_with s t ||
  match s with
  | EmptyString => false
  | String _ s' => includes s' t
  end.

(** ** Requests and responses *)

(** A request as the router sees it: [new URL(event.request.url)], of
    which the code reads [hostname] and [pathname]; [search] is the rest
    of the request identity. *)
Record request := Request {
  hostname : string;
  pathname : string;
  search : string
}.

(** A response: the status is carried along, the code never looks at it. *)
Record response := Response {
  status : Z;
  body : string
}.

(** [Response.ok] *)
Definition response_ok (r : response) : bool :=
  (200 <=? status r)%Z && (status r <=? 299)%Z.

(** A partial response (status 206): [Cache.put] and [Cache.addAll] refuse
    it with a TypeError. *)
Definition partial (r : response) : bool := (status r =? 206)%Z.

(** What [Cache.addAll] takes: an ok status that is not 206. *)
Definition addable (r : response) : bool := response_ok r && negb (partial r).

Global Instance request_eq_dec : EqDecision request.
Proof. solve_decision. Defined.

Global Instance request_countable : Countable request.
Proof.
  refine (inj_countable'
            (fun r => (hostname r, pathname r, search r))
            (fun t => Request t.1.1 t.1.2 t.2) _).
  by intros [].
Defined.

(** ** CacheStorage *)

(** One cache generation maps request identities to responses. *)
Abbreviation cache := (gmap request response).

(** [caches]: the generations by name, in creation order. *)
Abbreviation cache_storage := (list (string * cache)).

(** [caches.keys()] *)
Definition storage_keys (cs : cache_storage) : list string := map fst cs.

(** [caches.has(name)] *)
Definition storage_has (name : string) (cs : cache_storage) : bool :=
  existsb (String.eqb name) (storage_keys cs).

(** the generation called [name] *)
Fixpoint storage_lookup (name : string) (cs : cache_storage) : option cache :=
  match cs with
  | [] => None
  | (k, c) :: cs' => if String.eqb k name then Some c else storage_lookup name cs'
  end.

(** [caches.open(name)]: creates the generation when it is absent *)
Definition storage_open (name : string) (cs : cache_storage) : cache_storage :=
  if storage_has name cs then cs else cs ++ [(name, ∅)].

(** [cache.put(request, response)] on the generation called [name] *)
Fixpoint storage_put (name : string) (req : request) (resp : response)
    (cs : cache_storage) : cache_storage :=
  match cs with
  | [] => []
  | (k, c) :: cs' =>
      if String.eqb k name then (k, <[req := resp]> c) :: cs'
      else (k, c) :: storage_put name req resp cs'
  end.

(** [caches.match(request)]: the generations are searched in creation
    order and the first hit wins. *)
Fixpoint storage_match (req : request) (cs : cache_storage) : option response :=
  match cs with
  | [] => None
  | (_, c) :: cs' =>
      match c !! req with
      | Some r => Some r
      | None => storage_match req cs'
      end
  end.

(** [caches.delete(name)] *)
Definition storage_delete (name : string) (cs : cache_storage) : cache_storage :=
  List.filter (fun kc => negb (String.eqb kc.1 name)) cs.

(** ** Values, promises, closures *)

(** JavaScript values as far as the worker handles them. *)
#[warnings="-register-all"]
Inductive value :=
| VUndef
| VBool (b : bool)
| VStr (s : string)
| VArr (vs : list value)
| VResp (r : response)
| VCache (name : string)          (* a Cache object, by the name it was opened under *)
| VPromise (p : nat)              (* a promise, by its index in the promise table *)
| VErr (msg : string).

(** ToBoolean *)
Definition truthy (v : value) : bool :=
  match v with
  | VUndef => false
  | VBool b => b
  | VStr s => negb (String.eqb s "")
  | _ => true
  end.

(** [a || b] *)
Definition js_or (a b : value) : value := if truthy a then a else b.

(** How a promise settled. *)
Inductive settlement :=
| Fulfil (v : value)
| Reject (e : value).

(** How a call of an arrow function ended. *)
Inductive completion :=
| Return (v : value)
| Throw (e : value).

(** What the network answers to one fetch. *)
Inductive fetch_result :=
| NetOk (r : response)
| NetFail (msg : string).

Definition settlement_of_fetch (f : fetch_result) : settlement :=
  match f with
  | NetOk r => Fulfil (VResp r)
  | NetFail msg => Reject (VErr msg)
  end.

(** What the page that issued a request finally gets. *)
Inductive outcome :=
| Served (r : response)
| NetworkError.

(** [respondWith(p)]: a Response is served, anything else (a rejection,
    or a fulfilment with a non-Response such as [undefined]) is a network
    error for the page. *)
Definition outcome_of (s : settlement) : outcome :=
  match s with
  | Fulfil (VResp r) => Served r
  | _ => NetworkError
  end.

Inductive lifecycle := Install | Activate.

(** The arrow functions of sw.js, with their captured variables, and the
    platform's own reactions ([H_...]). *)
Inductive closure :=
| K_install_addAll                       (* l.20  cache => cache.addAll(PRECACHE_URLS) *)
| K_install_skip                         (* l.21  () => self.skipWaiting() *)
| K_activate_purge                       (* l.28  keys => Promise.all(keys.filter(..).map(..)) *)
| K_activate_claim                       (* l.34  () => self.clients.claim() *)
| K_font_cached (req : request)          (* l.50  cached => { if (cached) return cached; ... } *)
| K_css_cached (req : request)           (* l.65  cached => { const fetchPromise = ...; return cached || fetchPromise } *)
| K_default_cached (req : request)       (* l.93  cached => { ... .catch(() => cached); return cached || fetchPromise } *)
| K_store (req : request)                (* l.52, 66, 81, 94  response => { clone; open.then(put); return response } *)
| K_put (req : request) (clone : response) (* l.54, 68, 83, 96  cache => cache.put(event.request, clone) *)
| K_data_fallback (req : request)        (* l.86  () => caches.match(event.request) *)
| K_default_fallback (cached : value)    (* l.98  () => cached *)
| H_respond (ev : nat)                   (* respondWith: the promise fulfilled *)
| H_respond_fail (ev : nat)              (* respondWith: the promise rejected *)
| H_extend (l : lifecycle)               (* waitUntil: the promise fulfilled *)
| H_extend_fail (l : lifecycle)          (* waitUntil: the promise rejected *)
| H_all_resolve (d i : nat)              (* Promise.all: element i fulfilled *)
| H_all_reject (d : nat).                (* Promise.all: an element rejected *)

(** [p.then(onFulfilled, onRejected)] registered on a promise; [derived]
    is the promise that [then] returned (the platform's own reactions
    have none). *)
Record reaction := Reaction {
  on_fulfilled : option closure;
  on_rejected : option closure;
  derived : option nat
}.

Inductive pstate :=
| Pending (rs : list reaction)
| Settled (s : settlement).

(** A microtask: a reaction whose promise has settled. *)
Definition job : Type := reaction * settlement.

(** Operations the worker hands to the platform; each completes later. *)
Inductive hostop :=
| OpFetch (req : request)                          (* fetch(request) *)
| OpMatch (req : request)                          (* caches.match(request) *)
| OpOpen (name : string)                           (* caches.open(name) *)
| OpPut (name : string) (req : request) (resp : response)  (* cache.put(request, response) *)
| OpAddAll (name : string) (urls : list string)    (* cache.addAll(urls) *)
| OpKeys                                           (* caches.keys() *)
| OpDelete (name : string)                         (* caches.delete(name) *)
| OpSkipWaiting                                    (* self.skipWaiting() *)
| OpClaim                                          (* self.clients.claim() *)
| OpPassthrough (ev : nat) (req : request).        (* no respondWith: the browser fetches itself *)

Inductive event :=
| EvIssue (op : hostop)                    (* the operation was started *)
| EvSettle (op : hostop) (s : settlement)  (* the operation completed *)
| EvRespond (ev : nat) (s : settlement)    (* the promise given to respondWith settled *)
| EvLifetime (l : lifecycle) (s : settlement). (* the promise given to waitUntil settled *)

(** ** The machine *)

Record machine := Machine {
  promises : list pstate;                 (* promise table *)
  jobs : list job;                        (* microtask queue, oldest first *)
  pending : list (hostop * nat);          (* operations in flight, with their promise *)
  alls : list (nat * (nat * list value)); (* Promise.all: remaining count and values *)
  answered : bool;                        (* respondWith was called on the event being dispatched *)
  storage : cache_storage;
  trace : list event;                     (* oldest first *)
  location : string -> request            (* URL resolution against the worker's location *)
}.

Definition idle (loc : string -> request) (cs : cache_storage) : machine :=
  Machine [] [] [] [] false cs [] loc.

Definition set_promises (x : list pstate) (m : machine) : machine :=
  Machine x (jobs m) (pending m) (alls m) (answered m) (storage m) (trace m) (location m).
Definition set_jobs (x : list job) (m : machine) : machine :=
  Machine (promises m) x (pending m) (alls m) (answered m) (storage m) (trace m) (location m).
Definition set_pending (x : list (hostop * nat)) (m : machine) : machine :=
  Machine (promises m) (jobs m) x (alls m) (answered m) (storage m) (trace m) (location m).
Definition set_alls (x : list (nat * (nat * list value))) (m : machine) : machine :=
  Machine (promises m) (jobs m) (pending m) x (answered m) (storage m) (trace m) (location m).
Definition set_answered (x : bool) (m : machine) : machine :=
  Machine (promises m) (jobs m) (pending m) (alls m) x (storage m) (trace m) (location m).
Definition set_storage (x : cache_storage) (m : machine) : machine :=
  Machine (promises m) (jobs m) (pending m) (alls m) (answered m) x (trace m) (location m).
Definition set_trace (x : list event) (m : machine) : machine :=
  Machine (promises m) (jobs m) (pending m) (alls m) (answered m) (storage m) x (location m).

(** Synchronous code runs in the state monad over the machine. *)
Definition M (A : Type) : Type := machine -> A * machine.

Definition ret {A} (a : A) : M A := fun m => (a, m).
Definition bind {A B} (c : M A) (k : A -> M B) : M B :=
  fun m => let (a, m') := c m in k a m'.
Definition exec {A} (c : M A) (m : machine) : machine := snd (c m).

Declare Scope js_scope.
Delimit Scope js_scope with js.
Notation "'let*' x ':=' c1 'in' c2" := (bind c1 (fun x => c2))
  (at level 10, x name, c1 at level 100, c2 at level 200,
   format "'[v' 'let*'  x  ':='  c1  'in' '/' c2 ']'") : js_scope.
Notation "c1 ;; c2" := (bind c1 (fun _ => c2))
  (at level 100, c2 at level 200, right associativity,
   format "'[v' c1  ;; '/' c2 ']'") : js_scope.
Local Open Scope js_scope.

Definition modify (f : machine -> machine) : M unit := fun m => (tt, f m).
Definition log (e : event) : M unit := modify (fun m => set_trace (trace m ++ [e]) m).
Definition enqueue (j : job) : M unit := modify (fun m => set_jobs (jobs m ++ [j]) m).

(** a fresh pending promise *)
Definition new_promise : M nat :=
  fun m => (length (promises m), set_promises (promises m ++ [Pending []]) m).

(** Settle a promise and queue its reactions; the resolving functions
    are one-shot, settling a settled promise does nothing. *)
Definition settle_promise (p : nat) (s : settlement) : M unit :=
  fun m =>
    match promises m !! p with
    | Some (Pending rs) =>
        (tt, set_jobs (jobs m ++ map (fun r => (r, s)) rs)
               (set_promises (<[p := Settled s]> (promises m)) m))
    | _ => (tt, m)
    end.

(** Register a reaction: kept while the promise is pending, queued at
    once when it has settled. *)
Definition subscribe (p : nat) (r : reaction) : M unit :=
  fun m =>
    match promises m !! p with
    | Some (Pending rs) => (tt, set_promises (<[p := Pending (rs ++ [r])]> (promises m)) m)
    | Some (Settled s) => enqueue (r, s) m
    | None => (tt, m)
    end.

(** [p.then(f, g)] *)
Definition then_ (p : nat) (f g : option closure) : M nat :=
  let* d := new_promise in
  subscribe p (Reaction f g (Some d)) ;;
  ret d.

(** The platform reacting to a promise: no derived promise. *)
Definition react (p : nat) (f g : closure) : M unit :=
  subscribe p (Reaction (Some f) (Some g) None).

(** The resolve function of promise [d]: a promise is followed, any
    other value fulfils. *)
Definition resolve (d : nat) (v : value) : M unit :=
  match v with
  | VPromise q =>
      if Nat.eqb q d then settle_promise d (Reject (VErr "TypeError"))
      else subscribe q (Reaction None None (Some d))
  | _ => settle_promise d (Fulfil v)
  end.

(** Hand an operation to the platform; the promise it returns. *)
Definition issue (op : hostop) : M nat :=
  let* p := new_promise in
  log (EvIssue op) ;;
  modify (fun m => set_pending (pending m ++ [(op, p)]) m) ;;
  ret p.

(** ** The platform API the worker calls *)

Definition fetch (req : request) : M nat := issue (OpFetch req).
Definition caches_match (req : request) : M nat := issue (OpMatch req).
Definition caches_open (name : string) : M nat := issue (OpOpen name).
Definition caches_keys : M nat := issue OpKeys.
Definition caches_delete (name : string) : M nat := issue (OpDelete name).
Definition cache_put (name : string) (req : request) (resp : response) : M nat :=
  issue (OpPut name req resp).
Definition cache_addAll (name : string) (urls : list string) : M nat :=
  issue (OpAddAll name urls).
Definition skipWaiting : M nat := issue OpSkipWaiting.
Definition clients_claim : M nat := issue OpClaim.

(** [event.respondWith(p)] *)
Definition respondWith (ev : nat) (p : nat) : M unit :=
  modify (set_answered true) ;;
  react p (H_respond ev) (H_respond_fail ev).

(** [event.waitUntil(p)] *)
Definition waitUntil (l : lifecycle) (p : nat) : M unit :=
  react p (H_extend l) (H_extend_fail l).

(** [Promise.resolve(v)] *)
Definition promise_resolve (v : value) : M nat :=
  match v with
  | VPromise p => ret p
  | _ => let* p := new_promise in settle_promise p (Fulfil v) ;; ret p
  end.

Fixpoint all_lookup (d : nat) (l : list (nat * (nat * list value)))
    : option (nat * list value) :=
  match l with
  | [] => None
  | (k, x) :: l' => if Nat.eqb k d then Some x else all_lookup d l'
  end.

(** Promise.all, the elements from index [i] on: each is resolved and
    observed. *)
Fixpoint all_subscribe (d i : nat) (vs : list value) {struct vs} : M unit :=
  match vs with
  | [] => ret tt
  | v :: vs' =>
      let* p := promise_resolve v in
      react p (H_all_resolve d i) (H_all_reject d) ;;
      all_subscribe d (S i) vs'
  end.

(** [Promise.all(vs)] *)
Definition promise_all (vs : list value) : M nat :=
  let* d := new_promise in
  modify (fun m => set_alls ((d, (length vs, repeat VUndef (length vs))) :: alls m) m) ;;
  match vs with
  | [] => settle_promise d (Fulfil (VArr []))
  | _ => all_subscribe d 0 vs
  end ;;
  ret d.

(** ToString, for the argument of [caches.delete] *)
Definition to_string (v : value) : string :=
  match v with
  | VStr s => s
  | VBool true => "true"
  | VBool false => "false"
  | VUndef => "undefined"
  | _ => "[object Object]"
  end.

(** [keys.map(key => caches.delete(key))]: one operation per key, in order *)
Fixpoint map_delete (keys : list value) : M (list value) :=
  match keys with
  | [] => ret []
  | key :: keys' =>
      let* p := caches_delete (to_string key) in
      let* ps := map_delete keys' in
      ret (VPromise p :: ps)
  end.

(** ** The worker: constants *)

Definition CACHE_NAME : string := "salahdaily-v1".

Definition PRECACHE_URLS : list string :=
  [ "./";
    "./index.html";
    "./masjid.html";
    "./salahdaily_icon.png";
    "./favicon.ico";
    "./icons/icon-192.png";
    "./icons/icon-512.png";
    "./icons/icon-maskable-192.png";
    "./icons/icon-maskable-512.png";
    "./icons/apple-touch-icon.png" ].

(** [key !== CACHE_NAME] *)
Definition not_current (key : value) : bool :=
  match key with
  | VStr k => negb (String.eqb k CACHE_NAME)
  | _ => true
  end.

(** ** The worker: arrow functions *)

(** l.52-56 (and 66-70, 81-85, 94-97, the same text):
    [response => { const clone = response.clone();
                   caches.open(CACHE_NAME).then(cache => cache.put(event.request, clone));
                   return response; }] *)
Definition store_and_return (req : request) (response : value) : M completion :=
  match response with
  | VResp r =>
      let clone := r in
      let* c := caches_open CACHE_NAME in
      let* _ := then_ c (Some (K_put req clone)) None in
      ret (Return response)
  | _ => ret (Throw (VErr "TypeError"))
  end.

(** The body of each arrow function, applied to its argument. *)
Definition call (k : closure) (arg : value) : M completion :=
  match k with
  | K_install_addAll =>
      match arg with
      | VCache name =>
          let* p := cache_addAll name PRECACHE_URLS in
          ret (Return (VPromise p))
      | _ => ret (Throw (VErr "TypeError"))
      end
  | K_install_skip =>
      let* p := skipWaiting in
      ret (Return (VPromise p))
  | K_activate_purge =>
      match arg with
      | VArr keys =>
          let* ps := map_delete (List.filter not_current keys) in
          let* d := promise_all ps in
          ret (Return (VPromise d))
      | _ => ret (Throw (VErr "TypeError"))
      end
  | K_activate_claim =>
      let* p := clients_claim in
      ret (Return (VPromise p))
  | K_font_cached req =>
      let cached := arg in
      if truthy cached then ret (Return cached)
      else
        let* f := fetch req in
        let* q := then_ f (Some (K_store req)) None in
        ret (Return (VPromise q))
  | K_css_cached req =>
      let cached := arg in
      let* f := fetch req in
      let* fetchPromise := then_ f (Some (K_store req)) None in
      ret (Return (js_or cached (VPromise fetchPromise)))
  | K_default_cached req =>
      let cached := arg in
      let* f := fetch req in
      let* q := then_ f (Some (K_store req)) None in
      let* fetchPromise := then_ q None (Some (K_default_fallback cached)) in
      ret (Return (js_or cached (VPromise fetchPromise)))
  | K_store req => store_and_return req arg
  | K_put req clone =>
      match arg with
      | VCache name =>
          let* p := cache_put name req clone in
          ret (Return (VPromise p))
      | _ => ret (Throw (VErr "TypeError"))
      end
  | K_data_fallback req =>
      let* p := caches_match req in
      ret (Return (VPromise p))
  | K_default_fallback cached => ret (Return cached)
  | H_respond ev => log (EvRespond ev (Fulfil arg)) ;; ret (Return VUndef)
  | H_respond_fail ev => log (EvRespond ev (Reject arg)) ;; ret (Return VUndef)
  | H_extend l => log (EvLifetime l (Fulfil arg)) ;; ret (Return VUndef)
  | H_extend_fail l => log (EvLifetime l (Reject arg)) ;; ret (Return VUndef)
  | H_all_resolve d i =>
      (fun m =>
         match all_lookup d (alls m) with
         | Some (remaining, values) =>
             let values' := <[i := arg]> values in
             let remaining' := pred remaining in
             ((if Nat.eqb remaining' 0
               then settle_promise d (Fulfil (VArr values'))
               else ret tt) ;; ret (Return VUndef))
               (set_alls ((d, (remaining', values')) :: alls m) m)
         | None => (Return VUndef, m)
         end)
  | H_all_reject d => settle_promise d (Reject arg) ;; ret (Return VUndef)
  end.

(** ** The worker: listeners *)

(** l.17-23 *)
Definition on_install : M unit :=
  let* c := caches_open CACHE_NAME in
  let* a := then_ c (Some K_install_addAll) None in
  let* s := then_ a (Some K_install_skip) None in
  waitUntil Install s.

(** l.26-36 *)
Definition on_activate : M unit :=
  let* k := caches_keys in
  let* a := then_ k (Some K_activate_purge) None in
  let* c := then_ a (Some K_activate_claim) None in
  waitUntil Activate c.

(** l.39-102 *)
Definition on_fetch (ev : nat) (req : request) : M unit :=
  let url := req in
  if String.eqb (hostname url) "gc.zgo.at" || ends_with (hostname url) ".goatcounter.com"
  then ret tt
  else if String.eqb (hostname url) "fonts.gstatic.com" then
    let* c := caches_match req in
    let* p := then_ c (Some (K_font_cached req)) None in
    respondWith ev p
  else if String.eqb (hostname url) "fonts.googleapis.com" then
    let* c := caches_match req in
    let* p := then_ c (Some (K_css_cached req)) None in
    respondWith ev p
  else if ends_with (pathname url) ".csv" || includes (pathname url) "/latest/" then
    let* f := fetch req in
    let* s := then_ f (Some (K_store req)) None in
    let* p := then_ s None (Some (K_data_fallback req)) in
    respondWith ev p
  else
    let* c := caches_match req in
    let* p := then_ c (Some (K_default_cached req)) None in
    respondWith ev p.

(** ** The platform: microtasks *)

(** What a reaction does with the completion of its handler. *)
Definition complete (d : option nat) (c : completion) : M unit :=
  match d with
  | Some d =>
      match c with
      | Return v => resolve d v
      | Throw e => settle_promise d (Reject e)
      end
  | None => ret tt
  end.

(** Without a handler the settlement passes through to the derived
    promise. *)
Definition pass_through (d : option nat) (s : settlement) : M unit :=
  match d with
  | Some d => settle_promise d s
  | None => ret tt
  end.

(** Run one microtask. *)
Definition run_job (j : job) : M unit :=
  let (r, s) := j in
  match s with
  | Fulfil v =>
      match on_fulfilled r with
      | Some k => let* c := call k v in complete (derived r) c
      | None => pass_through (derived r) s
      end
  | Reject e =>
      match on_rejected r with
      | Some k => let* c := call k e in complete (derived r) c
      | None => pass_through (derived r) s
      end
  end.

(** Run microtasks until the queue is empty (at most [fuel] of them). *)
Fixpoint drain (fuel : nat) (m : machine) : machine :=
  match jobs m with
  | [] => m
  | j :: js =>
      match fuel with
      | 0 => m
      | S fuel' => drain fuel' (exec (run_job j) (set_jobs js m))
      end
  end.

(** ** The platform: completing operations *)

(** One move of the environment: which operation in flight completes,
    and how the network answers at this moment. *)
Record choice := Choice {
  pick : nat;
  net : request -> fetch_result
}.

(** Take the [i]-th element out of a list; past the end, the last one. *)
Fixpoint extract {A} (i : nat) (l : list A) {struct l} : option (A * list A) :=
  match l with
  | [] => None
  | x :: l' =>
      match l' with
      | [] => Some (x, [])
      | _ =>
          match i with
          | 0 => Some (x, l')
          | S i' =>
              match extract i' l' with
              | Some (y, rest) => Some (y, x :: rest)
              | None => None
              end
          end
      end
  end.

(** [cache.addAll]: every URL is fetched; one failure, or one response
    that is not ok or is partial, fails the whole batch. *)
Fixpoint fetch_all (nw : request -> fetch_result) (reqs : list request)
    : option (list (request * response)) :=
  match reqs with
  | [] => Some []
  | r :: reqs' =>
      match nw r with
      | NetOk resp =>
          if addable resp then
            match fetch_all nw reqs' with
            | Some es => Some ((r, resp) :: es)
            | None => None
            end
          else None
      | NetFail _ => None
      end
  end.

(** The requests a list of URLs stands for at the worker's location. *)
Definition requests_of (loc : string -> request) (urls : list string) : list request :=
  map loc urls.

Definition storage_put_all (name : string) (es : list (request * response))
    (cs : cache_storage) : cache_storage :=
  fold_left (fun cs e => storage_put name e.1 e.2 cs) es cs.

Definition option_value (o : option response) : value :=
  match o with
  | Some r => VResp r
  | None => VUndef
  end.

(** The effect and the result of an operation at the moment it completes. *)
Definition perform (c : choice) (op : hostop) (m : machine) : settlement * machine :=
  match op with
  | OpFetch req => (settlement_of_fetch (net c req), m)
  | OpMatch req => (Fulfil (option_value (storage_match req (storage m))), m)
  | OpOpen name => (Fulfil (VCache name), set_storage (storage_open name (storage m)) m)
  | OpPut name req resp =>
      if partial resp then (Reject (VErr "TypeError"), m)
      else (Fulfil VUndef, set_storage (storage_put name req resp (storage m)) m)
  | OpAddAll name urls =>
      match fetch_all (net c) (requests_of (location m) urls) with
      | Some es => (Fulfil VUndef, set_storage (storage_put_all name es (storage m)) m)
      | None => (Reject (VErr "TypeError"), m)
      end
  | OpKeys => (Fulfil (VArr (map VStr (storage_keys (storage m)))), m)
  | OpDelete name =>
      (Fulfil (VBool (storage_has name (storage m))),
       set_storage (storage_delete name (storage m)) m)
  | OpSkipWaiting => (Fulfil VUndef, m)
  | OpClaim => (Fulfil VUndef, m)
  | OpPassthrough _ req => (settlement_of_fetch (net c req), m)
  end.

Definition complete_op (c : choice) (op : hostop) (p : nat) : M unit :=
  let* s := perform c op in
  log (EvSettle op s) ;;
  settle_promise p s.

(** One move: the chosen operation completes, then the microtasks run. *)
Definition host_step (fuel : nat) (c : choice) (m : machine) : machine :=
  match extract (pick c) (pending m) with
  | None => m
  | Some ((op, p), rest) => drain fuel (exec (complete_op c op p) (set_pending rest m))
  end.

Definition run (fuel : nat) (sched : list choice) (m : machine) : machine :=
  fold_left (fun m c => host_step fuel c m) sched m.

(** ** The platform: dispatching events *)

Definition dispatch_install (fuel : nat) (m : machine) : machine :=
  drain fuel (exec on_install m).

Definition dispatch_activate (fuel : nat) (m : machine) : machine :=
  drain fuel (exec on_activate m).

(** A fetch event on which the listener did not call [respondWith] is
    handled by the browser: it fetches and hands the result to the page. *)
Definition default_handling (ev : nat) (req : request) : M unit :=
  fun m =>
    if answered m then (tt, m)
    else (let* _ := issue (OpPassthrough ev req) in ret tt) m.

Definition dispatch_fetch (fuel : nat) (ev : nat) (req : request) (m : machine) : machine :=
  drain fuel
    (exec (modify (set_answered false) ;; on_fetch ev req ;; default_handling ev req) m).

(** The page asks for [req] again and again, one fetch event at a time:
    each event is dispatched and the environment makes one move. *)
Fixpoint revisit (fuel : nat) (req : request) (visits : list (nat * choice))
    (m : machine) : machine :=
  match visits with
  | [] => m
  | (ev, c) :: visits' =>
      revisit fuel req visits' (host_step fuel c (dispatch_fetch fuel ev req m))
  end.

(** ** Observations *)

(** What the page got for fetch event [ev], if anything yet. *)
Fixpoint delivered (ev : nat) (t : list event) : option outcome :=
  match t with
  | [] => None
  | EvRespond ev' s :: t' =>
      if Nat.eqb ev' ev then Some (outcome_of s) else delivered ev t'
  | EvSettle (OpPassthrough ev' _) s :: t' =>
      if Nat.eqb ev' ev then Some (outcome_of s) else delivered ev t'
  | _ :: t' => delivered ev t'
  end.

(** How the promise given to [respondWith] settled, if it has. *)
Fixpoint handler_result (ev : nat) (t : list event) : option settlement :=
  match t with
  | [] => None
  | EvRespond ev' s :: t' =>
      if Nat.eqb ev' ev then Some s else handler_result ev t'
  | _ :: t' => handler_result ev t'
  end.

(** The response stored for [req] in the generation called [name]. *)
Definition stored (name : string) (req : request) (cs : cache_storage) : option response :=
  match storage_lookup name cs with
  | Some c => c !! req
  | None => None
  end.

Definition is_cache_event (e : event) : bool :=
  match e with
  | EvIssue (OpMatch _ | OpOpen _ | OpPut _ _ _ | OpAddAll _ _ | OpKeys | OpDelete _) => true
  | EvSettle (OpMatch _ | OpOpen _ | OpPut _ _ _ | OpAddAll _ _ | OpKeys | OpDelete _) _ => true
  | _ => false
  end.

(** The operations the worker started, in order. *)
Fixpoint issued (t : list event) : list hostop :=
  match t with
  | [] => []
  | EvIssue op :: t' => op :: issued t'
  | _ :: t' => issued t'
  end.

Definition is_fetch (op : hostop) : bool :=
  match op with
  | OpFetch _ => true
  | _ => false
  end.

(** The network fetches the worker started. *)
Definition fetches (t : list event) : list hostop := List.filter is_fetch (issued t).

(** The tier of a request: the tests of the fetch listener, in its order. *)
Inductive route :=
| Bypass
| CacheFirst
| RevalidateCss
| NetworkFirst
| RevalidateDefault.

Definition classify (req : request) : route :=
  let url := req in
  if String.eqb (hostname url) "gc.zgo.at" || ends_with (hostname url) ".goatcounter.com"
  then Bypass
  else if String.eqb (hostname url) "fonts.gstatic.com" then CacheFirst
  else if String.eqb (hostname url) "fonts.googleapis.com" then RevalidateCss
  else if ends_with (pathname url) ".csv" || includes (pathname url) "/latest/"
  then NetworkFirst
  else RevalidateDefault.


(** The generation is the current one. *)
Definition is_current (kc : string * cache) : bool := String.eqb kc.1 CACHE_NAME.

(** The names [key !== CACHE_NAME] keeps, out of [caches.keys()]. *)
Definition old_keys (cs : cache_storage) : list string :=
  List.filter (fun k => negb (String.eqb k CACHE_NAME)) (storage_keys cs).

(** Promise ids handed out in a row, with the key each one is for. *)
Fixpoint numbered (base : nat) (ks : list string) : list (nat * string) :=
  match ks with
  | [] => []
  | k :: ks' => (base, k) :: numbered (S base) ks'
  end.

(** The deletion in flight for a numbered key. *)
Definition delete_op (pk : nat * string) : hostop * nat := (OpDelete pk.2, pk.1).

(** The reaction [Promise.all] puts on its element [i]. *)
Definition all_reaction (d i : nat) : reaction :=
  Reaction (Some (H_all_resolve d i)) (Some (H_all_reject d)) None.

(** The reactions the activate listener registers (l.28, l.34 and
    [waitUntil]). *)
Definition claim_reaction : reaction := Reaction (Some K_activate_claim) None (Some 2).
Definition extend_reaction : reaction :=
  Reaction (Some (H_extend Activate)) (Some (H_extend_fail Activate)) None.

(** The activation is deleting old generations: [R] are the deletions
    still in flight, out of [n] that were started. Promise 1 is the one
    [keys().then(...)] returned, promise 2 the one given to [waitUntil],
    promise [3 + n] the one of [Promise.all]. *)
Record purging (cs : cache_storage) (n : nat) (R : list (nat * string))
    (m : machine) : Prop := Purging {
  pg_jobs : jobs m = [];
  pg_pending : pending m = map delete_op R;
  pg_nodup : NoDup (map fst R);
  pg_elem : forall p k, In (p, k) R ->
    3 <= p < 3 + n /\ k <> CACHE_NAME /\
    exists i, promises m !! p = Some (Pending [all_reaction (3 + n) i]);
  pg_then : promises m !! 1 = Some (Pending [claim_reaction]);
  pg_wait : promises m !! 2 = Some (Pending [extend_reaction]);
  pg_all : promises m !! (3 + n) = Some (Pending [Reaction None None (Some 1)]);
  pg_len : length (promises m) = 4 + n;
  pg_count : exists vals, all_lookup (3 + n) (alls m) = Some (length R, vals);
  pg_current : List.filter is_current (storage m) = List.filter is_current cs;
  pg_old : forall kc, In kc (storage m) -> is_current kc = true \/ In kc.1 (map snd R);
  pg_unclaimed : ~ In OpClaim (issued (trace m));
  pg_waiting : forall s, ~ In (EvLifetime Activate s) (trace m)
}.

(** The old generations are gone and [clients.claim()] is in flight. *)
Record claiming (cs : cache_storage) (n : nat) (m : machine) : Prop := Claiming {
  cl_jobs : jobs m = [];
  cl_pending : pending m = [(OpClaim, 4 + n)];
  cl_claim : promises m !! (4 + n) = Some (Pending [Reaction None None (Some 2)]);
  cl_wait : promises m !! 2 = Some (Pending [extend_reaction]);
  cl_storage : storage m = List.filter is_current cs;
  cl_claimed : In OpClaim (issued (trace m));
  cl_waiting : forall s, ~ In (EvLifetime Activate s) (trace m)
}.

(** The promise given to [waitUntil] is fulfilled. *)
Record activated (cs : cache_storage) (m : machine) : Prop := Activated {
  ac_jobs : jobs m = [];
  ac_pending : pending m = [];
  ac_storage : storage m = List.filter is_current cs;
  ac_claimed : In OpClaim (issued (trace m));
  ac_done : In (EvLifetime Activate (Fulfil VUndef)) (trace m);
  ac_only : forall s, In (EvLifetime Activate s) (trace m) -> s = Fulfil VUndef
}.

(** Where the activation stands when [k] more moves complete it. *)
Definition activation (cs : cache_storage) (loc : string -> request) (fuel : nat)
    (k : nat) (m : machine) : Prop :=
  let n := length (old_keys cs) in
  (k = n + 2 /\ m = dispatch_activate fuel (idle loc cs)) \/
  (exists R, k = length R + 1 /\ R <> [] /\ purging cs n R m) \/
  (k = 1 /\ claiming cs n m) \/
  (k = 0 /\ activated cs m).


(** ** Sample requests, responses and schedules *)

(** The worker's scope: a precache entry such as [./index.html] resolved
    against it. *)
Definition origin (u : string) : request := Request "salahdaily.example" u "".

(** A choice that settles the first operation in flight, with the network
    answering every request with [r], or failing. *)
Definition answers (r : response) : choice := Choice 0 (fun _ => NetOk r).
Definition offline : choice := Choice 0 (fun _ => NetFail "offline").

Definition fresh : response := Response 200 "fresh".
Definition stale : response := Response 200 "stale".
Definition missing : response := Response 404 "not found".
Definition ranged : response := Response 206 "partial".

Definition counter_request : request := Request "stats.goatcounter.com" "/count" "".
Definition font_request : request := Request "fonts.gstatic.com" "/s/amiri.csv" "".
Definition css_request : request := Request "fonts.googleapis.com" "/css2" "family=Amiri".
Definition data_request : request := origin "/data/mosques/times.csv".
Definition page_request : request := origin "/index.html".

Definition one_generation : cache_storage := [(CACHE_NAME, {[ page_request := stale ]})].
Definition two_generations : cache_storage :=
  [("salahdaily-v0", {[ page_request := stale ]}); (CACHE_NAME, ∅)].
Definition three_generations : cache_storage :=
  [("workbox", ∅); ("salahdaily-v0", {[ page_request := stale ]}); (CACHE_NAME, ∅)].

(** ** What the fetch listener may start *)

(** The operations the listener's code can start for the request [req] of
    event [ev]: a lookup or a fetch of [req], opening the current
    generation, a put of [req] there; or, when it declines, the platform's
    own fetch of [req]. *)
Definition router_op (ev : nat) (req : request) (op : hostop) : Prop :=
  match op with
  | OpMatch q | OpFetch q => q = req
  | OpOpen name => name = CACHE_NAME
  | OpPut name q _ => name = CACHE_NAME /\ q = req
  | OpPassthrough e q => e = ev /\ q = req
  | _ => False
  end.

(** The phases of the activation, each with what has been started so far. *)
Definition activation_order (cs : cache_storage) (loc : string -> request)
    (fuel k : nat) (m : machine) : Prop :=
  let n := length (old_keys cs) in
  (k = n + 2 /\ m = dispatch_activate fuel (idle loc cs)) \/
  (exists R, k = length R + 1 /\ R <> [] /\ purging cs n R m /\
             issued (trace m) = OpKeys :: map OpDelete (old_keys cs)) \/
  (k = 1 /\ claiming cs n m /\
   issued (trace m) = (OpKeys :: map OpDelete (old_keys cs) ++ [OpClaim])%list) \/
  (k = 0 /\ activated cs m /\
   issued (trace m) = (OpKeys :: map OpDelete (old_keys cs) ++ [OpClaim])%list).
(** * Properties *)

(** ** Strings *)

Lemma ends_with_spec (s suf : string) :
  ends_with s suf = true <-> exists pre, s = pre ++ suf.
Proof.
  induction s as [|a s IH]; cbn [ends_with].
  - rewrite orb_false_r, String.eqb_eq. split.
    + intros <-. by exists "".
    + intros [pre H]. destruct pre; simpl in H; [done | discriminate].
  - rewrite orb_true_iff, String.eqb_eq, IH. split.
    + intros [<- | [pre ->]]; [by exists "" | by exists (String a pre)].
    + intros [[|b pre] H]; simpl in H; [by left |].
      injection H as -> ->. right. by exists pre.
Qed.

Lemma starts_with_spec (s p : string) :
  starts_with s p = true <-> exists rest, s = p ++ rest.
Proof.
  revert s. induction p as [|c p IH]; intros s; cbn [starts_with].
  - split; [intros _; by exists s | done].
  - destruct s as [|d s].
    + split; [done | intros [rest H]; discriminate].
    + rewrite andb_true_iff, Ascii.eqb_eq, IH. split.
      * intros [-> [rest ->]]. by exists rest.
      * intros [rest H]. injection H as -> ->. split; [done | by exists rest].
Qed.

Lemma includes_spec (s t : string) :
  includes s t = true <-> exists a b, s = a ++ t ++ b.
Proof.
  induction s as [|c s IH]; cbn [includes].
  - rewrite orb_false_r, starts_with_spec. split.
    + intros [rest H]. by exists "", rest.
    + intros [[|x a] [b H]]; simpl in H; [by exists b | discriminate].
  - rewrite orb_true_iff, starts_with_spec, IH. split.
    + intros [[rest H] | [a [b ->]]]; [by exists "", rest | by exists (String c a), b].
    + intros [[|x a] [b H]]; simpl in H; [left; by exists b |].
      injection H as -> ->. right. by exists a, b.
Qed.

(** ** The listener follows the classification *)

Lemma on_fetch_classify (ev : nat) (req : request) :
  on_fetch ev req =
  match classify req with
  | Bypass => ret tt
  | CacheFirst =>
      let* c := caches_match req in
      let* p := then_ c (Some (K_font_cached req)) None in
      respondWith ev p
  | RevalidateCss =>
      let* c := caches_match req in
      let* p := then_ c (Some (K_css_cached req)) None in
      respondWith ev p
  | NetworkFirst =>
      let* f := fetch req in
      let* s := then_ f (Some (K_store req)) None in
      let* p := then_ s None (Some (K_data_fallback req)) in
      respondWith ev p
  | RevalidateDefault =>
      let* c := caches_match req in
      let* p := then_ c (Some (K_default_cached req)) None in
      respondWith ev p
  end.
Proof.
  unfold on_fetch, classify.
  repeat match goal with |- context [if ?b then _ else _] => destruct b end;
    reflexivity.
Qed.

Lemma classify_bypass (req : request) :
  hostname req = "gc.zgo.at" \/ (exists pre, hostname req = pre ++ ".goatcounter.com") ->
  classify req = Bypass.
Proof.
  intros H. unfold classify.
  destruct H as [H | H].
  - rewrite H. reflexivity.
  - apply ends_with_spec in H. rewrite H, orb_true_r. reflexivity.
Qed.

Lemma classify_font (req : request) :
  hostname req = "fonts.gstatic.com" -> classify req = CacheFirst.
Proof. intros H. unfold classify. rewrite H. reflexivity. Qed.

Lemma classify_data (req : request) :
  (exists pre, pathname req = pre ++ ".csv") \/
  (exists a b, pathname req = a ++ "/latest/" ++ b) ->
  hostname req <> "gc.zgo.at" ->
  ~ (exists pre, hostname req = pre ++ ".goatcounter.com") ->
  hostname req <> "fonts.gstatic.com" ->
  hostname req <> "fonts.googleapis.com" ->
  classify req = NetworkFirst.
Proof.
  intros Hp H1 H2 H3 H4. unfold classify.
  apply String.eqb_neq in H1, H3, H4. rewrite H1, H3, H4.
  destruct (ends_with (hostname req) ".goatcounter.com") eqn:E.
  { apply ends_with_spec in E. contradiction. }
  cbn [orb].
  destruct Hp as [Hp | Hp].
  - apply ends_with_spec in Hp. by rewrite Hp.
  - apply includes_spec in Hp. by rewrite Hp, orb_true_r.
Qed.

(** ** Microtasks and moves when nothing is left to do *)

Lemma drain_nil (fuel : nat) (m : machine) : jobs m = [] -> drain fuel m = m.
Proof. intros H. destruct fuel; simpl; rewrite H; reflexivity. Qed.

Lemma host_step_quiet (fuel : nat) (c : choice) (m : machine) :
  pending m = [] -> host_step fuel c m = m.
Proof. intros H. unfold host_step. rewrite H. reflexivity. Qed.

Lemma run_quiet (fuel : nat) (sched : list choice) (m : machine) :
  pending m = [] -> run fuel sched m = m.
Proof.
  intros H. induction sched as [|c sched IH]; simpl; [reflexivity |].
  rewrite host_step_quiet by exact H. exact IH.
Qed.

Lemma run_nil (fuel : nat) (m : machine) : run fuel [] m = m.
Proof. reflexivity. Qed.

Lemma run_cons (fuel : nat) (c : choice) (sched : list choice) (m : machine) :
  run fuel (c :: sched) m = run fuel sched (host_step fuel c m).
Proof. reflexivity. Qed.

Lemma run_app (fuel : nat) (s1 s2 : list choice) (m : machine) :
  run fuel (s1 ++ s2) m = run fuel s2 (run fuel s1 m).
Proof. unfold run. apply fold_left_app. Qed.

(** ** CacheStorage *)

Lemma storage_has_lookup (name : string) (cs : cache_storage) :
  storage_has name cs = true <-> is_Some (storage_lookup name cs).
Proof.
  unfold storage_has, storage_keys.
  induction cs as [|[k c] cs IH]; cbn [map existsb storage_lookup fst].
  - split; [discriminate | intros [? ?]; discriminate].
  - rewrite (String.eqb_sym name k). destruct (String.eqb k name).
    + split; [eauto | reflexivity].
    + exact IH.
Qed.

Lemma storage_has_app (name : string) (cs1 cs2 : cache_storage) :
  storage_has name (cs1 ++ cs2) = storage_has name cs1 || storage_has name cs2.
Proof. unfold storage_has, storage_keys. by rewrite map_app, existsb_app. Qed.

Lemma storage_has_open (name : string) (cs : cache_storage) :
  storage_has name (storage_open name cs) = true.
Proof.
  unfold storage_open. destruct (storage_has name cs) eqn:E; [exact E |].
  rewrite storage_has_app, E. unfold storage_has. cbn.
  by rewrite String.eqb_refl.
Qed.

Lemma storage_keys_put (name : string) (req : request) (resp : response)
    (cs : cache_storage) :
  storage_keys (storage_put name req resp cs) = storage_keys cs.
Proof.
  unfold storage_keys.
  induction cs as [|[k c] cs IH]; cbn [storage_put map]; [reflexivity |].
  destruct (String.eqb k name); cbn [map fst]; [reflexivity | by rewrite IH].
Qed.

Lemma storage_has_put (k name : string) (req : request) (resp : response)
    (cs : cache_storage) :
  storage_has k (storage_put name req resp cs) = storage_has k cs.
Proof. unfold storage_has. by rewrite storage_keys_put. Qed.

(** A put reaches the generation it names, when that generation exists. *)
Lemma stored_put_eq (name : string) (req : request) (resp : response)
    (cs : cache_storage) :
  storage_has name cs = true ->
  stored name req (storage_put name req resp cs) = Some resp.
Proof.
  unfold stored, storage_has, storage_keys.
  induction cs as [|[k c] cs IH]; cbn [map existsb storage_put fst]; [discriminate |].
  rewrite (String.eqb_sym name k).
  destruct (String.eqb k name) eqn:E; cbn [storage_lookup orb]; rewrite E.
  - intros _. apply lookup_insert_eq.
  - exact IH.
Qed.

Lemma stored_put_ne (name : string) (req req' : request) (resp : response)
    (cs : cache_storage) :
  req <> req' ->
  stored name req' (storage_put name req resp cs) = stored name req' cs.
Proof.
  intros Hne. unfold stored.
  induction cs as [|[k c] cs IH]; cbn [storage_put]; [reflexivity |].
  destruct (String.eqb k name) eqn:E; cbn [storage_lookup]; rewrite E.
  - by apply lookup_insert_ne.
  - exact IH.
Qed.

(** A put leaves every other generation alone. *)
Lemma storage_lookup_put_other (k name : string) (req : request) (resp : response)
    (cs : cache_storage) :
  k <> name ->
  storage_lookup k (storage_put name req resp cs) = storage_lookup k cs.
Proof.
  intros Hne.
  induction cs as [|[k' c] cs IH]; cbn [storage_put]; [reflexivity |].
  destruct (String.eqb k' name) eqn:E; cbn [storage_lookup].
  - apply String.eqb_eq in E. subst k'.
    destruct (String.eqb name k) eqn:E'; [| reflexivity].
    apply String.eqb_eq in E'. congruence.
  - by rewrite IH.
Qed.

Lemma storage_lookup_app_other (k name : string) (c : cache) (cs : cache_storage) :
  k <> name ->
  storage_lookup k (cs ++ [(name, c)]) = storage_lookup k cs.
Proof.
  intros Hne.
  induction cs as [|[k' c'] cs IH]; cbn [app storage_lookup].
  - destruct (String.eqb name k) eqn:E; [| reflexivity].
    apply String.eqb_eq in E. congruence.
  - by rewrite IH.
Qed.

Lemma storage_lookup_open_other (k name : string) (cs : cache_storage) :
  k <> name ->
  storage_lookup k (storage_open name cs) = storage_lookup k cs.
Proof.
  intros Hne. unfold storage_open.
  destruct (storage_has name cs); [reflexivity |].
  by apply storage_lookup_app_other.
Qed.

Lemma storage_match_app (req : request) (cs1 cs2 : cache_storage) :
  storage_match req (cs1 ++ cs2) =
  match storage_match req cs1 with
  | Some r => Some r
  | None => storage_match req cs2
  end.
Proof.
  induction cs1 as [|[k c] cs1 IH]; cbn [app storage_match]; [reflexivity |].
  destruct (c !! req); [reflexivity | exact IH].
Qed.

(** Opening a generation adds no entry. *)
Lemma storage_match_open (name : string) (req : request) (cs : cache_storage) :
  storage_match req (storage_open name cs) = storage_match req cs.
Proof.
  unfold storage_open. destruct (storage_has name cs); [reflexivity |].
  rewrite storage_match_app. cbn [storage_match].
  rewrite lookup_empty. by destruct (storage_match req cs).
Qed.

(** After a miss, a put is what the next lookup finds. *)
Lemma storage_match_put_fresh (name : string) (req : request) (resp : response)
    (cs : cache_storage) :
  storage_match req cs = None ->
  storage_has name cs = true ->
  storage_match req (storage_put name req resp cs) = Some resp.
Proof.
  unfold storage_has, storage_keys.
  induction cs as [|[k c] cs IH]; cbn [map existsb storage_put storage_match fst];
    [discriminate |].
  rewrite (String.eqb_sym name k).
  destruct (c !! req) eqn:Ec; [discriminate |].
  destruct (String.eqb k name) eqn:E; cbn [storage_match orb]; intros Hm Hh.
  - by rewrite lookup_insert_eq.
  - rewrite Ec. by apply IH.
Qed.

Lemma stored_open (name : string) (req : request) (cs : cache_storage) :
  storage_match req cs = None ->
  stored name req (storage_open name cs) = None.
Proof.
  intros Hm. unfold stored, storage_open.
  destruct (storage_has name cs) eqn:E.
  - induction cs as [|[k c] cs IH]; cbn [storage_lookup]; [reflexivity |].
    cbn [storage_match] in Hm. destruct (c !! req) eqn:Ec; [discriminate |].
    destruct (String.eqb k name) eqn:E'; [exact Ec |].
    apply IH; [exact Hm |].
    unfold storage_has, storage_keys in E |- *. cbn [map existsb fst] in E.
    rewrite (String.eqb_sym name k), E' in E. exact E.
  - induction cs as [|[k c] cs IH]; cbn [app storage_lookup].
    + rewrite String.eqb_refl. apply lookup_empty.
    + unfold storage_has, storage_keys in E. cbn [map existsb fst] in E.
      rewrite (String.eqb_sym name k) in E.
      destruct (String.eqb k name); [discriminate |].
      cbn [storage_match] in Hm. destruct (c !! req); [discriminate |].
      by apply IH.
Qed.

(** ** [addAll] *)

Lemma partial_false (r : response) : status r <> 206%Z -> partial r = false.
Proof. intros H. unfold partial. by apply Z.eqb_neq. Qed.

Lemma partial_true (r : response) : status r = 206%Z -> partial r = true.
Proof. intros H. unfold partial. by apply Z.eqb_eq. Qed.

Lemma addable_ok (r : response) :
  response_ok r = true -> status r <> 206%Z -> addable r = true.
Proof. intros Hok H. unfold addable. by rewrite Hok, partial_false. Qed.

Lemma not_ok_not_addable (r : response) : response_ok r = false -> addable r = false.
Proof. intros H. unfold addable. by rewrite H. Qed.

Lemma fetch_all_spec (nw : request -> fetch_result) (reqs : list request)
    (es : list (request * response)) :
  fetch_all nw reqs = Some es ->
  map fst es = reqs /\
  Forall (fun e => nw e.1 = NetOk e.2 /\ addable e.2 = true) es.
Proof.
  revert es. induction reqs as [|q reqs IH]; intros es; cbn [fetch_all].
  - intros [= <-]. by split.
  - destruct (nw q) as [r|] eqn:Eq; [| discriminate].
    destruct (addable r) eqn:Er; [| discriminate].
    destruct (fetch_all nw reqs) as [es'|]; [| discriminate].
    intros [= <-]. destruct (IH es' eq_refl) as [IH1 IH2].
    split; [cbn; by rewrite IH1 |]. by constructor.
Qed.

Lemma fetch_all_complete (nw : request -> fetch_result) (reqs : list request) :
  (forall q, In q reqs -> exists r, nw q = NetOk r /\ addable r = true) ->
  exists es, fetch_all nw reqs = Some es.
Proof.
  induction reqs as [|q reqs IH]; intros H; cbn [fetch_all]; [by eexists |].
  destruct (H q) as (r & -> & ->); [by left |].
  destruct IH as [es ->]; [intros q' Hq'; apply H; by right |]. by eexists.
Qed.

Lemma fetch_all_fail (nw : request -> fetch_result) (reqs : list request)
    (q : request) (msg : string) :
  In q reqs -> nw q = NetFail msg -> fetch_all nw reqs = None.
Proof.
  intros Hin Hq. induction reqs as [|q' reqs IH]; [destruct Hin |].
  cbn [fetch_all]. destruct Hin as [-> | Hin].
  - by rewrite Hq.
  - rewrite (IH Hin). destruct (nw q') as [r' |]; [| done]. by destruct (addable r').
Qed.

Lemma storage_put_all_cons (name : string) (e : request * response)
    (es : list (request * response)) (cs : cache_storage) :
  storage_put_all name (e :: es) cs =
  storage_put_all name es (storage_put name e.1 e.2 cs).
Proof. reflexivity. Qed.

Lemma stored_put_all_other (name : string) (es : list (request * response))
    (cs : cache_storage) (q : request) :
  ~ In q (map fst es) ->
  stored name q (storage_put_all name es cs) = stored name q cs.
Proof.
  revert cs. induction es as [|e es IH]; intros cs Hq; [reflexivity |].
  rewrite storage_put_all_cons, IH.
  - apply stored_put_ne. intros Heq. apply Hq. by left.
  - intros Hin. apply Hq. by right.
Qed.

(** After [addAll] every request of the batch has its response in the
    generation. *)
Lemma stored_put_all (name : string) (nw : request -> fetch_result)
    (es : list (request * response)) (cs : cache_storage) (e : request * response) :
  storage_has name cs = true ->
  Forall (fun e => nw e.1 = NetOk e.2) es ->
  In e es ->
  stored name e.1 (storage_put_all name es cs) = Some e.2.
Proof.
  revert cs. induction es as [|e0 es IH]; intros cs Hhas Hnw Hin; [destruct Hin |].
  rewrite storage_put_all_cons.
  apply Forall_cons in Hnw as [Hnw0 Hnw].
  destruct (in_dec (decide_rel (=)) e.1 (map fst es)) as [Hlater | Hlast].
  - apply in_map_iff in Hlater as (e' & He' & Hin').
    assert (e' = e) as ->.
    { destruct Hin as [-> | Hin].
      - rewrite Forall_forall in Hnw. apply list_elem_of_In, Hnw in Hin'.
        rewrite He', Hnw0 in Hin'. destruct e', e; cbn in *. congruence.
      - rewrite Forall_forall in Hnw.
        pose proof (Hnw _ (proj2 (list_elem_of_In _ _) Hin')) as H1.
        pose proof (Hnw _ (proj2 (list_elem_of_In _ _) Hin)) as H2.
        rewrite He', H2 in H1. destruct e', e; cbn in *. congruence. }
    apply IH; [by rewrite storage_has_put | done | done].
  - destruct Hin as [-> | Hin].
    + rewrite stored_put_all_other by done. by apply stored_put_eq.
    + contradict Hlast. by apply in_map.
Qed.

(** ** Taking an operation out of those in flight *)

Lemma extract_spec {A} (i : nat) (l : list A) (x : A) (rest : list A) :
  extract i l = Some (x, rest) ->
  exists l1 l2, l = (l1 ++ x :: l2)%list /\ rest = (l1 ++ l2)%list.
Proof.
  revert i x rest. induction l as [|y l IH]; intros i x rest; cbn [extract]; [done |].
  destruct l as [|z l].
  - intros [= <- <-]. by exists [], [].
  - destruct i as [|i].
    + intros [= <- <-]. by exists [], (z :: l).
    + destruct (extract i (z :: l)) as [[x' rest']|] eqn:E; [| done].
      intros [= <- <-]. destruct (IH i x' rest' E) as (l1 & l2 & Hl & Hr).
      exists (y :: l1), l2. cbn. by rewrite Hl, Hr.
Qed.

Lemma extract_is_Some {A} (i : nat) (l : list A) :
  l <> [] -> exists x rest, extract i l = Some (x, rest).
Proof.
  revert i. induction l as [|y l IH]; intros i Hne; [done |]. cbn [extract].
  destruct l as [|z l]; [by eexists _, _ |].
  destruct i as [|i]; [by eexists _, _ |].
  destruct (IH i) as (x & rest & ->); [done |]. by eexists _, _.
Qed.

Lemma extract_map {A B} (f : A -> B) (i : nat) (l : list A) :
  extract i (map f l) =
  match extract i l with
  | Some (x, rest) => Some (f x, map f rest)
  | None => None
  end.
Proof.
  revert i. induction l as [|y l IH]; intros i; cbn [map extract]; [done |].
  destruct l as [|z l]; [done |].
  destruct i as [|i]; [done |].
  cbn [map] in IH |- *. rewrite IH. by destruct (extract i (z :: l)) as [[? ?]|].
Qed.

(** ** Numbered keys *)

Lemma numbered_keys (base : nat) (ks : list string) :
  map snd (numbered base ks) = ks.
Proof.
  revert base. induction ks as [|k ks IH]; intros base; cbn; [done |]. by rewrite IH.
Qed.

Lemma numbered_ids (base : nat) (ks : list string) :
  map fst (numbered base ks) = seq base (length ks).
Proof.
  revert base. induction ks as [|k ks IH]; intros base; cbn; [done |]. by rewrite IH.
Qed.

Lemma numbered_length (base : nat) (ks : list string) :
  length (numbered base ks) = length ks.
Proof. by rewrite <- (length_map fst), numbered_ids, length_seq. Qed.

Lemma numbered_In (base : nat) (ks : list string) (p : nat) (k : string) :
  In (p, k) (numbered base ks) ->
  base <= p < base + length ks /\ In k ks.
Proof.
  intros Hin. split.
  - apply (in_map fst) in Hin. rewrite numbered_ids in Hin. cbn in Hin.
    apply in_seq in Hin. lia.
  - apply (in_map snd) in Hin. by rewrite numbered_keys in Hin.
Qed.

(** ** Deleting generations *)

Lemma old_keys_not_current (cs : cache_storage) (k : string) :
  In k (old_keys cs) -> k <> CACHE_NAME.
Proof.
  unfold old_keys. rewrite filter_In. intros [_ H] ->.
  by rewrite String.eqb_refl in H.
Qed.

Lemma filter_not_current (ks : list string) :
  List.filter not_current (map VStr ks) =
  map VStr (List.filter (fun k => negb (String.eqb k CACHE_NAME)) ks).
Proof.
  induction ks as [|k ks IH]; cbn; [done |].
  destruct (negb (String.eqb k CACHE_NAME)); cbn; by rewrite IH.
Qed.

Lemma storage_delete_current (k : string) (cs : cache_storage) :
  k <> CACHE_NAME ->
  List.filter is_current (storage_delete k cs) = List.filter is_current cs.
Proof.
  intros Hk. unfold storage_delete.
  induction cs as [|[k' c] cs IH]; [done |].
  cbn [List.filter fst].
  destruct (String.eqb k' k) eqn:E; cbn [negb List.filter].
  - apply String.eqb_eq in E. subst k'. rewrite IH.
    unfold is_current at 2. cbn [fst].
    destruct (String.eqb k CACHE_NAME) eqn:E'; [| done].
    apply String.eqb_eq in E'. contradiction.
  - rewrite IH. done.
Qed.

Lemma storage_delete_In (k : string) (cs : cache_storage) (kc : string * cache) :
  In kc (storage_delete k cs) <-> In kc cs /\ kc.1 <> k.
Proof.
  unfold storage_delete. rewrite filter_In, negb_true_iff, String.eqb_neq. tauto.
Qed.

Lemma filter_all {A} (f : A -> bool) (l : list A) :
  (forall x, In x l -> f x = true) -> List.filter f l = l.
Proof.
  induction l as [|x l IH]; intros H; cbn; [done |].
  rewrite (H x) by by left. rewrite IH; [done |]. intros y Hy. apply H. by right.
Qed.

Lemma filter_none {A} (f : A -> bool) (l : list A) :
  (forall x, In x l -> f x = false) -> List.filter f l = [].
Proof.
  induction l as [|x l IH]; intros H; cbn; [done |].
  rewrite (H x) by by left. apply IH. intros y Hy. apply H. by right.
Qed.

(** With distinct names, at most one generation is current. *)
Lemma current_at_most_one (cs : cache_storage) :
  NoDup (storage_keys cs) -> length (List.filter is_current cs) <= 1.
Proof.
  unfold storage_keys. induction cs as [|[k c] cs IH]; intros Hnd; [cbn; lia |].
  cbn [map fst] in Hnd. apply NoDup_cons in Hnd as [Hk Hnd].
  cbn [List.filter]. destruct (is_current (k, c)) eqn:E; [| by apply IH].
  unfold is_current in E. cbn [fst] in E. apply String.eqb_eq in E. subst k.
  rewrite (filter_none is_current cs); [cbn; lia |].
  intros [k' c'] Hin. unfold is_current. cbn [fst].
  destruct (String.eqb k' CACHE_NAME) eqn:E'; [| done].
  apply String.eqb_eq in E'. subst k'. exfalso. apply Hk.
  apply list_elem_of_In. change CACHE_NAME with (fst (CACHE_NAME, c')).
  by apply in_map.
Qed.




(** ** Entries of other requests *)

Lemma stored_put_frame (name name' : string) (req q : request) (resp : response)
    (cs : cache_storage) :
  q <> req -> stored name q (storage_put name' req resp cs) = stored name q cs.
Proof.
  intros Hq. destruct (String.eqb_spec name name') as [-> | Hn].
  - by apply stored_put_ne.
  - unfold stored. by rewrite storage_lookup_put_other.
Qed.

Lemma stored_app_empty (name name' : string) (q : request) (cs : cache_storage) :
  stored name q (cs ++ [(name', ∅)]) = stored name q cs.
Proof.
  unfold stored. induction cs as [|[k c] cs IH]; cbn [app storage_lookup].
  - destruct (String.eqb name' name); [apply lookup_empty | done].
  - by destruct (String.eqb k name).
Qed.

Lemma stored_open_frame (name name' : string) (q : request) (cs : cache_storage) :
  stored name q (storage_open name' cs) = stored name q cs.
Proof.
  unfold storage_open. destruct (storage_has name' cs); [done |].
  apply stored_app_empty.
Qed.

(** ** Which generation answers a lookup *)

Lemma storage_match_put_current (name : string) (req : request) (resp : response)
    (cs : cache_storage) :
  (forall k c, In (k, c) cs -> k <> name -> c !! req = None) ->
  storage_has name cs = true ->
  storage_match req (storage_put name req resp cs) = Some resp.
Proof.
  unfold storage_has, storage_keys.
  induction cs as [|[k c] cs IH]; cbn [map existsb storage_put fst]; [discriminate |].
  intros Hold. rewrite (String.eqb_sym name k).
  destruct (String.eqb_spec k name) as [-> | Hk]; cbn [orb storage_match].
  - intros _. by rewrite lookup_insert_eq.
  - intros Hh. rewrite (Hold k c) by (done || by left).
    apply IH; [| done]. intros k' c' Hin. apply Hold. by right.
Qed.

Lemma storage_open_In (name : string) (cs : cache_storage) (k : string) (c : cache) :
  In (k, c) (storage_open name cs) -> In (k, c) cs \/ (k = name /\ c = ∅).
Proof.
  unfold storage_open. destruct (storage_has name cs); [by left |].
  intros [? | [[= <- <-] | []]]%in_app_iff; [by left | by right].
Qed.

(** A generation that holds the request and stands before any generation
    called [name] keeps answering the lookup after a put into [name]. *)
Lemma storage_match_holder (req : request) (pre : cache_storage) (k : string)
    (c : cache) (held : response) :
  c !! req = Some held ->
  exists old, forall tail,
    storage_match req (pre ++ (k, c) :: tail) = Some old.
Proof.
  intros Hc. induction pre as [|[k' c'] pre IH]; cbn [app storage_match].
  - exists held. intros tail. by rewrite Hc.
  - destruct (c' !! req) as [r |]; [by exists r | exact IH].
Qed.

Lemma storage_put_behind (name : string) (req : request) (resp : response)
    (pre : cache_storage) (k : string) (c : cache) (tail : cache_storage) :
  Forall (fun kc => kc.1 <> name) pre -> k <> name ->
  exists tail', storage_put name req resp (pre ++ (k, c) :: tail)
                = (pre ++ (k, c) :: tail')%list.
Proof.
  intros Hpre Hk. apply String.eqb_neq in Hk.
  induction pre as [|[k' c'] pre IH]; cbn [app storage_put].
  - rewrite Hk. by eexists.
  - apply Forall_cons in Hpre as [Hk' Hpre]. cbn [fst] in Hk'.
    apply String.eqb_neq in Hk'. rewrite Hk'.
    destruct (IH Hpre) as [tail' ->]. by eexists.
Qed.

Lemma storage_open_behind (name : string) (pre : cache_storage) (kc : string * cache)
    (tail : cache_storage) :
  exists tail', storage_open name (pre ++ kc :: tail) = (pre ++ kc :: tail')%list.
Proof.
  unfold storage_open. destruct (storage_has name _); [by eexists |].
  exists (tail ++ [(name, ∅)])%list. by rewrite <- app_assoc.
Qed.

(** ** [addAll] *)

Lemma fetch_all_not_ok (nw : request -> fetch_result) (reqs : list request)
    (q : request) (r : response) :
  In q reqs -> nw q = NetOk r -> addable r = false -> fetch_all nw reqs = None.
Proof.
  intros Hin Hq Hr. induction reqs as [|q' reqs IH]; [destruct Hin |].
  cbn [fetch_all]. destruct Hin as [-> | Hin].
  - by rewrite Hq, Hr.
  - rewrite (IH Hin). destruct (nw q') as [r' |]; [| done]. by destruct (addable r').
Qed.

Lemma stored_put_all_frame (name name' : string) (es : list (request * response))
    (cs : cache_storage) (q : request) :
  ~ In q (map fst es) ->
  stored name q (storage_put_all name' es cs) = stored name q cs.
Proof.
  revert cs. induction es as [|e es IH]; intros cs Hq; [reflexivity |].
  rewrite storage_put_all_cons, IH.
  - apply stored_put_frame. intros Heq. apply Hq. by left.
  - intros Hin. apply Hq. by right.
Qed.

Lemma storage_lookup_put_all_other (k name : string) (es : list (request * response))
    (cs : cache_storage) :
  k <> name -> storage_lookup k (storage_put_all name es cs) = storage_lookup k cs.
Proof.
  intros Hk. revert cs. induction es as [|e es IH]; intros cs; [reflexivity |].
  by rewrite storage_put_all_cons, IH, storage_lookup_put_other.
Qed.

Lemma storage_keys_put_all (name : string) (es : list (request * response))
    (cs : cache_storage) :
  storage_keys (storage_put_all name es cs) = storage_keys cs.
Proof.
  revert cs. induction es as [|e es IH]; intros cs; [reflexivity |].
  by rewrite storage_put_all_cons, IH, storage_keys_put.
Qed.

Lemma storage_keys_open (name : string) (cs : cache_storage) :
  NoDup (storage_keys cs) -> NoDup (storage_keys (storage_open name cs)).
Proof.
  intros Hnd. unfold storage_open. destruct (storage_has name cs) eqn:E; [done |].
  unfold storage_keys in *. rewrite map_app. cbn [map fst].
  apply NoDup_app. split; [done |]. split; [| apply NoDup_singleton].
  intros k Hk [-> | []%elem_of_nil]%elem_of_cons.
  unfold storage_has, storage_keys in E.
  assert (existsb (String.eqb name) (map fst cs) = true); [| congruence].
  apply existsb_exists. exists name. split; [by apply list_elem_of_In | apply String.eqb_refl].
Qed.

(** ** The current generation on its own *)

Lemma stored_current (q : request) (cs : cache_storage) :
  stored CACHE_NAME q (List.filter is_current cs) = stored CACHE_NAME q cs.
Proof.
  unfold stored. induction cs as [|[k c] cs IH]; [done |].
  cbn [List.filter]. unfold is_current at 1. cbn [fst].
  destruct (String.eqb k CACHE_NAME) eqn:E; cbn [storage_lookup]; rewrite E; done.
Qed.

(** With distinct names, a lookup over the current generation alone is a
    lookup in the generation called [CACHE_NAME]. *)
Lemma storage_match_current (q : request) (cs : cache_storage) :
  NoDup (storage_keys cs) ->
  storage_match q (List.filter is_current cs) = stored CACHE_NAME q cs.
Proof.
  unfold stored, storage_keys.
  induction cs as [|[k c] cs IH]; intros Hnd; [done |].
  cbn [map fst] in Hnd. apply NoDup_cons in Hnd as [Hk Hnd].
  cbn [List.filter]. unfold is_current at 1. cbn [fst storage_lookup].
  destruct (String.eqb k CACHE_NAME) eqn:E; [| by apply IH].
  apply String.eqb_eq in E. subst k.
  rewrite (filter_none is_current cs).
  - cbn [storage_match]. by destruct (c !! q).
  - intros [k' c'] Hin. unfold is_current. cbn [fst]. apply String.eqb_neq.
    intros ->. apply Hk. apply list_elem_of_In.
    change CACHE_NAME with (fst (CACHE_NAME, c')). by apply in_map.
Qed.

Lemma old_keys_open (cs : cache_storage) :
  old_keys (storage_open CACHE_NAME cs) = old_keys cs.
Proof.
  unfold storage_open. destruct (storage_has CACHE_NAME cs); [done |].
  unfold old_keys, storage_keys. rewrite map_app, List.filter_app. cbn.
  by rewrite app_nil_r.
Qed.

Lemma current_exactly_one (cs : cache_storage) :
  NoDup (storage_keys cs) -> storage_has CACHE_NAME cs = true ->
  storage_keys (List.filter is_current cs) = [CACHE_NAME].
Proof.
  unfold storage_has, storage_keys.
  induction cs as [|[k c] cs IH]; intros Hnd Hh; [discriminate |].
  cbn [map fst existsb] in Hnd, Hh. apply NoDup_cons in Hnd as [Hk Hnd].
  cbn [List.filter]. unfold is_current at 1. cbn [fst].
  rewrite (String.eqb_sym CACHE_NAME k) in Hh.
  destruct (String.eqb k CACHE_NAME) eqn:E.
  - apply String.eqb_eq in E. subst k. rewrite (filter_none is_current cs); [done |].
    intros [k' c'] Hin. unfold is_current. cbn [fst]. apply String.eqb_neq.
    intros ->. apply Hk. apply list_elem_of_In.
    change CACHE_NAME with (fst (CACHE_NAME, c')). by apply in_map.
  - by apply IH.
Qed.
(** ** Symbolic execution of the machine *)

(** The machine runs by rewriting: a move and a microtask are unfolded
    by the two equations below, the synchronous code in between is
    evaluated. *)

Lemma drain_cons (fuel : nat) (m : machine) (j : job) (js : list job) :
  jobs m = j :: js ->
  drain (S fuel) m = drain fuel (exec (run_job j) (set_jobs js m)).
Proof. intros H. simpl. rewrite H. reflexivity. Qed.

Lemma host_step_at (fuel : nat) (c : choice) (m : machine) (op : hostop) (p : nat)
    (rest : list (hostop * nat)) :
  extract (pick c) (pending m) = Some ((op, p), rest) ->
  host_step fuel c m = drain fuel (exec (complete_op c op p) (set_pending rest m)).
Proof. intros H. unfold host_step. rewrite H. reflexivity. Qed.

Arguments storage_open : simpl never.
Arguments storage_put : simpl never.
Arguments storage_put_all : simpl never.
Arguments storage_match : simpl never.
Arguments storage_delete : simpl never.
Arguments storage_has : simpl never.
Arguments storage_keys : simpl never.
Arguments fetch_all : simpl never.
Arguments partial : simpl never.
Arguments run : simpl never.
Arguments host_step : simpl never.
Arguments drain : simpl never.

(** Evaluate the synchronous code in [H : M = ...]; the storage, the
    network and the run itself stay as they are. *)
Ltac mnorm H :=
  let T := type of H in
  let T' := eval lazy -[drain run host_step revisit
                        storage_match storage_put storage_open storage_delete storage_has
                        storage_keys storage_put_all storage_lookup stored fetch_all
                        requests_of net pick partial CACHE_NAME PRECACHE_URLS
                        request_eq_dec request_countable] in T in
  let H' := fresh in
  assert (H' : T') by exact H; clear H; rename H' into H.

(** Run the microtasks that are queued. *)
Ltac micro H :=
  repeat first [ rewrite drain_nil in H by reflexivity
               | erewrite drain_cons in H by reflexivity; mnorm H ].

(** One move of the environment. *)
Ltac step H :=
  rewrite run_cons in H; erewrite host_step_at in H by reflexivity; mnorm H.

(** Dispatch of a fetch event for a request of a known tier. *)
Ltac dispatch Hc H :=
  unfold dispatch_fetch in H; rewrite on_fetch_classify, Hc in H; mnorm H; micro H.

(** Name the machine the goal is about. *)
Tactic Notation "machine" ident(M) ident(H) :=
  match goal with
  | |- context [run ?f ?s ?m] => remember (run f s m) as M eqn:H
  | |- context [dispatch_fetch ?f ?e ?r ?m] =>
      remember (dispatch_fetch f e r m) as M eqn:H
  end.

(** The run is over: read the observations off the final machine. *)
Ltac finish H :=
  first [ rewrite run_quiet in H by reflexivity | rewrite run_nil in H | idtac ];
  subst; cbn; rewrite ?Nat.eqb_refl.


(** Read an observation off the machine [H : M = ...] describes. *)
Ltac observe H := rewrite H; cbn; rewrite ?Nat.eqb_refl.

(** Decide what the environment answers where the run depends on it. *)
Ltac resolve_stuck H :=
  repeat match type of H with
    | context [net ?c ?r] => destruct (net c r) eqn:?; mnorm H
    | context [storage_match ?r ?cs] => destruct (storage_match r cs) eqn:?; mnorm H
    | context [partial ?r] => destruct (partial r) eqn:?; mnorm H
    end.

(** Follow a run over a schedule of any length, to every point where
    it can stop; [k] concludes there. *)
Ltac explore H k :=
  first
    [ rewrite run_quiet in H by reflexivity; k
    | match type of H with
      | _ = run _ ?s _ =>
          destruct s as [|? ?];
          [ rewrite run_nil in H; k
          | step H; resolve_stuck H; micro H; explore H k ]
      end ].
(** ** The analytics bypass *)

(** C3. A request to the analytics host [gc.zgo.at], or to a host ending
    in [.goatcounter.com], is not answered by the worker: [respondWith]
    is not called, no cache operation is started, the storage stays as it
    was, and the page gets the settlement of the network, success or
    failure, as it is. *)
Theorem bypass_network_only (loc : string -> request) (cs : cache_storage)
    (fuel ev : nat) (req : request) (sched : list choice) :
  hostname req = "gc.zgo.at" \/ (exists pre, hostname req = pre ++ ".goatcounter.com") ->
  let m := run fuel sched (dispatch_fetch fuel ev req (idle loc cs)) in
  storage m = cs /\
  Forall (fun e => is_cache_event e = false) (trace m) /\
  answered m = false /\
  forall c rest, sched = c :: rest ->
    trace m = [EvIssue (OpPassthrough ev req);
               EvSettle (OpPassthrough ev req) (settlement_of_fetch (net c req))] /\
    delivered ev (trace m) = Some (outcome_of (settlement_of_fetch (net c req))).
Proof.
  intros H%classify_bypass. cbv zeta. machine M HM. dispatch H HM.
  destruct sched as [|c sched].
  - finish HM. split; [|split; [|split]]; try done. repeat constructor.
  - step HM. micro HM. finish HM.
    split; [|split; [|split]]; try done.
    + repeat constructor.
    + by intros c' rest [= <- <-].
Qed.

(** ** Stale-while-revalidate: when the fetch starts *)

(** C1, as the code has it. In both stale-while-revalidate tiers the
    listener starts the cache lookup only; the network fetch is started
    by the continuation of the lookup, right after the lookup has settled,
    whether it hit or missed. *)
Theorem fetch_follows_lookup (loc : string -> request) (cs : cache_storage)
    (fuel ev : nat) (req : request) (c : choice) :
  classify req = RevalidateCss \/ classify req = RevalidateDefault ->
  let m0 := dispatch_fetch (8 + fuel) ev req (idle loc cs) in
  let m1 := run (8 + fuel) [c] m0 in
  issued (trace m0) = [OpMatch req] /\
  exists rest,
    trace m1 =
      EvIssue (OpMatch req)
      :: EvSettle (OpMatch req) (Fulfil (option_value (storage_match req cs)))
      :: EvIssue (OpFetch req) :: rest.
Proof.
  intros H. cbv zeta. split.
  - machine M HM. destruct H as [H | H]; dispatch H HM; by finish HM.
  - machine M HM.
    destruct H as [H | H]; dispatch H HM; step HM;
      destruct (storage_match req cs); mnorm HM; micro HM; finish HM; eauto.
Qed.

(** C1, as stated, fails: when the listener returns, the fetch of a
    stale-while-revalidate request has not been started. *)
Lemma fetch_not_parallel :
  ~ (forall req, classify req = RevalidateCss \/ classify req = RevalidateDefault ->
     forall loc cs fuel ev,
       In (OpFetch req) (issued (trace (dispatch_fetch fuel ev req (idle loc cs))))).
Proof.
  intros H.
  specialize (H (Request "example.org" "/index.html" "") (or_intror eq_refl)
                (fun u => Request "example.org" u "") [] 8 0).
  vm_compute in H. intuition discriminate.
Qed.

(** ** A fetch that fails *)

(** C2, as the code has it. When the fetch fails: the default tier
    fulfils with the cached value, or with [undefined] when there is
    none; the cache-first and stylesheet tiers fulfil with the cached
    value when there is one, and reject with the error of the fetch when
    there is none. *)
Theorem failed_fetch_handling (loc : string -> request) (cs : cache_storage)
    (fuel ev : nat) (req : request) (c1 c2 : choice) (sched : list choice)
    (msg : string) :
  net c2 req = NetFail msg ->
  let m := run (8 + fuel) (c1 :: c2 :: sched)
             (dispatch_fetch (8 + fuel) ev req (idle loc cs)) in
  (classify req = RevalidateDefault ->
     handler_result ev (trace m) = Some (Fulfil (option_value (storage_match req cs)))) /\
  (classify req = CacheFirst \/ classify req = RevalidateCss ->
     forall cached, storage_match req cs = Some cached ->
       handler_result ev (trace m) = Some (Fulfil (VResp cached))) /\
  (classify req = CacheFirst \/ classify req = RevalidateCss ->
     storage_match req cs = None ->
       handler_result ev (trace m) = Some (Reject (VErr msg))).
Proof.
  intros Hnet. cbv zeta. machine M HM. split; [|split].
  - intros H. dispatch H HM. step HM.
    destruct (storage_match req cs); mnorm HM; micro HM;
      step HM; rewrite Hnet in HM; mnorm HM; micro HM; by finish HM.
  - intros [H | H] cached Hc; dispatch H HM; step HM; rewrite Hc in HM;
      mnorm HM; micro HM.
    + by finish HM.
    + step HM. rewrite Hnet in HM. mnorm HM. micro HM. by finish HM.
  - intros [H | H] Hc; dispatch H HM; step HM; rewrite Hc in HM; mnorm HM; micro HM;
      step HM; rewrite Hnet in HM; mnorm HM; micro HM; by finish HM.
Qed.

(** C2, as stated, fails: with nothing cached and the network down, the
    promise given to [respondWith] is rejected in the cache-first tier. *)
Lemma failed_fetch_surfaces :
  ~ (forall req,
       classify req = CacheFirst \/ classify req = RevalidateCss \/
       classify req = RevalidateDefault ->
       forall loc cs fuel ev sched msg e,
         Forall (fun c => net c req = NetFail msg) sched ->
         handler_result ev (trace (run fuel sched (dispatch_fetch fuel ev req (idle loc cs))))
         <> Some (Reject e)).
Proof.
  intros H.
  set (down := Choice 0 (fun _ => NetFail "offline")).
  specialize (H (Request "fonts.gstatic.com" "/s/font.woff2" "") (or_introl eq_refl)
                (fun u => Request "example.org" u "") [] 8 0 [down; down]
                "offline" (VErr "offline")).
  apply H; [repeat constructor | vm_compute; reflexivity].
Qed.

(** ** Network first *)

(** C4, as the code has it. A request whose path ends in [.csv] or
    contains [/latest/], and whose host is none of the hosts of the
    earlier tiers, starts with the network fetch. When the fetch
    succeeds the response is returned, and a copy is stored under the
    request in the generation called [CACHE_NAME], unless the response is
    partial (status 206): [cache.put] refuses that one and nothing is
    stored. When the fetch fails the result is what [caches.match] finds
    for the request over all generations, in creation order, and with
    no entry in any of them the page gets a network error; after a
    response was stored that is the stored copy when no other generation
    holds the request. *)
Theorem network_first (loc : string -> request) (cs : cache_storage)
    (fuel ev : nat) (req : request) (c1 c2 c3 : choice) (sched : list choice) :
  (exists pre, pathname req = pre ++ ".csv") \/
  (exists a b, pathname req = a ++ "/latest/" ++ b) ->
  hostname req <> "gc.zgo.at" ->
  ~ (exists pre, hostname req = pre ++ ".goatcounter.com") ->
  hostname req <> "fonts.gstatic.com" ->
  hostname req <> "fonts.googleapis.com" ->
  let m0 := dispatch_fetch (8 + fuel) ev req (idle loc cs) in
  issued (trace m0) = [OpFetch req] /\
  (forall resp, net c1 req = NetOk resp ->
     let m := run (8 + fuel) (c1 :: c2 :: c3 :: sched) m0 in
     handler_result ev (trace m) = Some (Fulfil (VResp resp)) /\
     delivered ev (trace m) = Some (Served resp) /\
     (status resp <> 206%Z -> stored CACHE_NAME req (storage m) = Some resp) /\
     (status resp = 206%Z -> storage m = storage_open CACHE_NAME cs)) /\
  (forall msg, net c1 req = NetFail msg ->
     let m := run (8 + fuel) (c1 :: c2 :: sched) m0 in
     handler_result ev (trace m) = Some (Fulfil (option_value (storage_match req cs))) /\
     delivered ev (trace m) =
       Some (match storage_match req cs with
             | Some r => Served r
             | None => NetworkError
             end) /\
     storage m = cs) /\
  (forall resp msg ev' c4 c5,
     net c1 req = NetOk resp -> status resp <> 206%Z ->
     net c4 req = NetFail msg -> ev' <> ev ->
     let m := run (8 + fuel) (c1 :: c2 :: c3 :: sched) m0 in
     let m' := run (8 + fuel) [c4; c5] (dispatch_fetch (8 + fuel) ev' req m) in
     handler_result ev' (trace m')
     = Some (Fulfil (option_value (storage_match req (storage m)))) /\
     ((forall k c, In (k, c) cs -> k <> CACHE_NAME -> c !! req = None) ->
      storage_match req (storage m) = Some resp)).
Proof.
  intros Hp H1 H2 H3 H4.
  pose proof (classify_data req Hp H1 H2 H3 H4) as H.
  cbv zeta. split; [|split; [|split]].
  - machine M HM. dispatch H HM. by finish HM.
  - intros resp Hnet. machine M HM. dispatch H HM.
    step HM. rewrite Hnet in HM. mnorm HM. micro HM.
    step HM. micro HM. step HM.
    destruct (partial resp) eqn:Ep; mnorm HM; micro HM; finish HM;
      (split; [done|]); (split; [done|]); split; intros Hs.
    + apply partial_false in Hs. congruence.
    + done.
    + apply stored_put_eq, storage_has_open.
    + apply partial_true in Hs. congruence.
  - intros msg Hnet. machine M HM. dispatch H HM.
    step HM. rewrite Hnet in HM. mnorm HM. micro HM. step HM.
    destruct (storage_match req cs); mnorm HM; micro HM; by finish HM.
  - intros resp msg ev' c4 c5 Hnet Hs%partial_false Hnet' Hev. apply Nat.eqb_neq in Hev.
    remember (run (8 + fuel) (c1 :: c2 :: c3 :: sched)
                (dispatch_fetch (8 + fuel) ev req (idle loc cs))) as M eqn:HM.
    dispatch H HM. step HM. rewrite Hnet in HM. mnorm HM. micro HM.
    step HM. micro HM. step HM. rewrite Hs in HM. mnorm HM. micro HM.
    rewrite run_quiet in HM by reflexivity.
    assert (HS : storage M = storage_put CACHE_NAME req resp (storage_open CACHE_NAME cs))
      by (by subst M).
    rewrite HS. split.
    + machine M' HM'. subst M. dispatch H HM'.
      step HM'. rewrite Hnet' in HM'. mnorm HM'. micro HM'. step HM'.
      destruct (storage_match req _); mnorm HM'; micro HM'; finish HM';
        by rewrite (Nat.eqb_sym ev ev'), Hev.
    + intros Hold. apply storage_match_put_current; [| apply storage_has_open].
      intros k c [Hin | [-> _]]%storage_open_In Hk; [by apply (Hold k c) | done].
Qed.

(** C4, as stated, fails: a [.csv] path on the font host is handled
    cache first, the listener starts a lookup and no fetch. *)
Lemma network_first_needs_precedence :
  ~ (forall req,
       ends_with (pathname req) ".csv" = true \/
       includes (pathname req) "/latest/" = true ->
       forall loc cs fuel ev,
         issued (trace (dispatch_fetch fuel ev req (idle loc cs))) = [OpFetch req]).
Proof.
  intros H.
  specialize (H (Request "fonts.gstatic.com" "/times.csv" "") (or_introl eq_refl)
                (fun u => Request "example.org" u "") [] 8 0).
  vm_compute in H. discriminate.
Qed.

(** ** Cache first *)

(** C7, as the code has it. A request to [fonts.gstatic.com], whatever
    its path: with a cached copy the copy is returned and no fetch is
    started; without one the request is fetched and the response is
    returned. Unless the response is partial (status 206) a copy is
    stored, and a second request for it is then answered from the cache,
    with no second fetch. A partial response is refused by [cache.put]:
    nothing is stored and a second request is fetched again. *)
Theorem cache_first (loc : string -> request) (cs : cache_storage)
    (fuel ev ev' : nat) (req : request) (c1 c2 c3 c4 c5 : choice)
    (sched sched' : list choice) :
  hostname req = "fonts.gstatic.com" ->
  let m0 := dispatch_fetch (8 + fuel) ev req (idle loc cs) in
  (forall cached, storage_match req cs = Some cached ->
     let m := run (8 + fuel) (c1 :: sched) m0 in
     handler_result ev (trace m) = Some (Fulfil (VResp cached)) /\
     delivered ev (trace m) = Some (Served cached) /\
     fetches (trace m) = [] /\
     storage m = cs) /\
  (forall resp, storage_match req cs = None -> net c2 req = NetOk resp ->
     let m := run (8 + fuel) (c1 :: c2 :: c3 :: c4 :: sched) m0 in
     let m' := run (8 + fuel) (c5 :: sched') (dispatch_fetch (8 + fuel) ev' req m) in
     fetches (trace m) = [OpFetch req] /\
     handler_result ev (trace m) = Some (Fulfil (VResp resp)) /\
     delivered ev (trace m) = Some (Served resp) /\
     (status resp <> 206%Z ->
        stored CACHE_NAME req (storage m) = Some resp /\
        (ev' <> ev ->
         handler_result ev' (trace m') = Some (Fulfil (VResp resp)) /\
         delivered ev' (trace m') = Some (Served resp)) /\
        fetches (trace m') = [OpFetch req]) /\
     (status resp = 206%Z ->
        storage m = storage_open CACHE_NAME cs /\
        fetches (trace m') = [OpFetch req; OpFetch req])).
Proof.
  intros H%classify_font. cbv zeta. split.
  - intros cached Hc. machine M HM. dispatch H HM.
    step HM. rewrite Hc in HM. mnorm HM. micro HM. by finish HM.
  - intros resp Hc Hnet.
    remember (run (8 + fuel) (c1 :: c2 :: c3 :: c4 :: sched)
                (dispatch_fetch (8 + fuel) ev req (idle loc cs))) as M eqn:HM.
    dispatch H HM. step HM. rewrite Hc in HM. mnorm HM. micro HM.
    step HM. rewrite Hnet in HM. mnorm HM. micro HM.
    step HM. micro HM. step HM.
    destruct (partial resp) eqn:Ep; mnorm HM; micro HM;
      rewrite run_quiet in HM by reflexivity.
    + split; [by observe HM |]. split; [by observe HM |]. split; [by observe HM |].
      split; intros Hs; [apply partial_false in Hs; congruence |].
      split; [by observe HM |].
      machine M' HM'. subst M. dispatch H HM'. step HM'.
      rewrite storage_match_open, Hc in HM'. mnorm HM'. micro HM'.
      explore HM' ltac:(by subst M').
    + split; [by observe HM |]. split; [by observe HM |]. split; [by observe HM |].
      split; intros Hs; [| apply partial_true in Hs; congruence].
      split. { subst M. cbn. apply stored_put_eq, storage_has_open. }
      machine M' HM'. subst M.
      dispatch H HM'. step HM'.
      rewrite storage_match_put_fresh in HM';
        [| by rewrite storage_match_open | apply storage_has_open].
      mnorm HM'. micro HM'. finish HM'.
      split; [|done].
      intros Hne. destruct (Nat.eqb_spec ev ev'); [congruence|]. done.
Qed.

(** C7, as stated, fails: a partial response (status 206) is returned
    but [cache.put] refuses it, so no copy is stored. *)
Lemma cache_first_partial_not_stored :
  ~ (forall req, hostname req = "fonts.gstatic.com" ->
     forall loc cs fuel ev c resp,
       storage_match req cs = None -> net c req = NetOk resp ->
       stored CACHE_NAME req
         (storage (run fuel [c; c; c; c] (dispatch_fetch fuel ev req (idle loc cs))))
       = Some resp).
Proof.
  intros H.
  specialize (H font_request eq_refl origin [] 8 0 (answers ranged) ranged
                eq_refl eq_refl).
  vm_compute in H. discriminate.
Qed.

(** ** Stale while revalidate *)

(** C8, as the code has it. In both stale-while-revalidate tiers, when
    the lookup finds an entry the handler returns it while the fetch is
    still in flight. Once the fetch has succeeded and the detached update
    has run, the generation called [CACHE_NAME] holds the new response
    for the request, unless the response is partial (status 206), which
    [cache.put] refuses; and a lookup finds the new response when no
    other generation holds the request. *)
Theorem stale_while_revalidate (loc : string -> request) (cs : cache_storage)
    (fuel ev : nat) (req : request) (c1 c2 c3 c4 : choice) (sched : list choice)
    (cached : response) :
  classify req = RevalidateCss \/ classify req = RevalidateDefault ->
  storage_match req cs = Some cached ->
  let m0 := dispatch_fetch (8 + fuel) ev req (idle loc cs) in
  let m1 := run (8 + fuel) [c1] m0 in
  (handler_result ev (trace m1) = Some (Fulfil (VResp cached)) /\
   delivered ev (trace m1) = Some (Served cached) /\
   (exists p, pending m1 = [(OpFetch req, p)]) /\
   storage m1 = cs) /\
  (forall resp, net c2 req = NetOk resp ->
     let m := run (8 + fuel) (c1 :: c2 :: c3 :: c4 :: sched) m0 in
     handler_result ev (trace m) = Some (Fulfil (VResp cached)) /\
     (status resp <> 206%Z ->
        stored CACHE_NAME req (storage m) = Some resp /\
        ((forall k c, In (k, c) cs -> k <> CACHE_NAME -> c !! req = None) ->
         storage_match req (storage m) = Some resp)) /\
     (status resp = 206%Z -> storage m = storage_open CACHE_NAME cs)).
Proof.
  intros H Hc; cbv zeta; split.
  - machine M HM.
    destruct H as [H | H]; dispatch H HM; step HM; rewrite Hc in HM; mnorm HM;
      micro HM; finish HM; eauto 10.
  - intros resp Hnet. machine M HM.
    destruct H as [H | H]; dispatch H HM; step HM; rewrite Hc in HM; mnorm HM;
      micro HM; step HM; rewrite Hnet in HM; mnorm HM; micro HM;
      step HM; micro HM; step HM;
      destruct (partial resp) eqn:Ep; mnorm HM; micro HM; finish HM;
      (split; [done |]); split; intros Hs;
      try (apply partial_false in Hs; congruence);
      try (apply partial_true in Hs; congruence);
      try done;
      (split; [apply stored_put_eq, storage_has_open |]);
      intros Hold; (apply storage_match_put_current; [| apply storage_has_open]);
      intros k c [Hin | [-> _]]%storage_open_In Hk; [by apply (Hold k c) | done
                                                    | by apply (Hold k c) | done].
Qed.

(** C8, as stated, fails: after a fetch that succeeded with a partial
    response (status 206) the storage still holds the old entry. *)
Lemma revalidate_partial_not_stored :
  ~ (forall req, classify req = RevalidateCss \/ classify req = RevalidateDefault ->
     forall loc cs fuel ev c cached resp,
       storage_match req cs = Some cached -> net c req = NetOk resp ->
       stored CACHE_NAME req
         (storage (run fuel [c; c; c; c] (dispatch_fetch fuel ev req (idle loc cs))))
       = Some resp).
Proof.
  intros H.
  specialize (H page_request (or_intror eq_refl) origin one_generation 8 0
                (answers ranged) stale ranged).
  vm_compute in H. specialize (H eq_refl eq_refl). discriminate.
Qed.
(** *** Machines whose promise table is not known *)

Lemma lookup_fresh {A} (P L : list A) (i : nat) :
  (P ++ L)%list !! (length P + i) = L !! i.
Proof. rewrite lookup_app_r by lia. f_equal. lia. Qed.

Lemma lookup_fresh0 {A} (P L : list A) : (P ++ L)%list !! length P = L !! 0.
Proof. rewrite <- (lookup_fresh P L 0). f_equal. lia. Qed.

Lemma insert_fresh {A} (P L : list A) (i : nat) (x : A) :
  <[length P + i := x]> (P ++ L)%list = (P ++ <[i := x]> L)%list.
Proof. rewrite insert_app_r. reflexivity. Qed.

Lemma insert_fresh0 {A} (P L : list A) (x : A) :
  <[length P := x]> (P ++ L)%list = (P ++ <[0 := x]> L)%list.
Proof. rewrite <- (insert_fresh P L 0). f_equal. lia. Qed.

(** Unfold the synchronous code in [H] and leave the lists alone. *)
Ltac munfold H :=
  let T := type of H in
  let T' := eval cbv [exec bind ret modify log enqueue new_promise settle_promise
                      subscribe then_ react resolve issue fetch caches_match caches_open
                      caches_keys caches_delete cache_put cache_addAll skipWaiting
                      clients_claim respondWith waitUntil promise_resolve
                      store_and_return call complete pass_through run_job complete_op
                      perform default_handling js_or truthy option_value
                      set_promises set_jobs set_pending set_alls set_answered set_storage
                      set_trace promises jobs pending alls answered storage trace location
                      on_fulfilled on_rejected derived fst snd] in T in
  let H' := fresh in
  assert (H' : T') by exact H; clear H; rename H' into H.

Ltac tcbn H :=
  let T := type of H in
  let T' := eval cbn in T in
  let H' := fresh in
  assert (H' : T') by exact H; clear H; rename H' into H.


(** ** What gets stored *)




(** ** One generation is written, all are read *)

Lemma storage_match_first (req : request) (k : string) (c : cache)
    (rest : cache_storage) (r : response) :
  c !! req = Some r -> storage_match req ((k, c) :: rest) = Some r.
Proof. intros H. unfold storage_match. by rewrite H. Qed.

(** C10. Whatever the tier and the schedule, the fetch router opens and
    writes the generation named by [CACHE_NAME] only, and leaves every
    other generation as it was; a lookup is answered by [caches.match]
    over all generations in creation order, so that an entry of the
    oldest generation, whatever its name, is what the handler returns. *)
Theorem writes_current_reads_all (loc : string -> request) (cs : cache_storage)
    (fuel ev : nat) (req : request) (sched : list choice) :
  let m := run (8 + fuel) sched (dispatch_fetch (8 + fuel) ev req (idle loc cs)) in
  (forall name q r, In (OpPut name q r) (issued (trace m)) -> name = CACHE_NAME) /\
  (forall name, In (OpOpen name) (issued (trace m)) -> name = CACHE_NAME) /\
  (forall k, k <> CACHE_NAME -> storage_lookup k (storage m) = storage_lookup k cs) /\
  (forall q s, In (EvSettle (OpMatch q) s) (trace m) ->
     s = Fulfil (option_value (storage_match q cs))) /\
  (forall k c rest old c1 sched',
     cs = (k, c) :: rest -> c !! req = Some old -> sched = c1 :: sched' ->
     classify req = CacheFirst \/ classify req = RevalidateCss \/
     classify req = RevalidateDefault ->
     handler_result ev (trace m) = Some (Fulfil (VResp old))).
Proof.
  cbv zeta. machine M HM. split; [|split; [|split; [|split]]].
  - destruct (classify req) eqn:H; dispatch H HM;
      explore HM ltac:(subst M; cbn; intros; intuition congruence).
  - destruct (classify req) eqn:H; dispatch H HM;
      explore HM ltac:(subst M; cbn; intros; intuition congruence).
  - destruct (classify req) eqn:H; dispatch H HM;
      explore HM ltac:(subst M; cbn; intros;
                       rewrite ?storage_lookup_put_other, ?storage_lookup_open_other by done;
                       done).
  - destruct (classify req) eqn:H; dispatch H HM;
      explore HM ltac:(subst M; cbn; intros q s Hin;
                       intuition (try discriminate);
                       match goal with
                       | E : EvSettle _ _ = EvSettle _ _ |- _ => injection E as <- <-
                       end;
                       match goal with
                       | E : storage_match _ _ = _ |- _ => by rewrite E
                       end).
  - intros k c rest old c1 sched' Hcs Hold -> H.
    pose proof (storage_match_first req k c rest old Hold) as Hm.
    rewrite <- Hcs in Hm. clear Hcs Hold.
    destruct H as [H | [H | H]]; dispatch H HM; step HM; rewrite Hm in HM;
      mnorm HM; micro HM;
      explore HM ltac:(subst M; cbn; rewrite ?Nat.eqb_refl; done).
Qed.

(** ** Installation *)

(** C5. The install handler signals completion only once every URL of
    the precache list has a response in the generation named by
    [CACHE_NAME]; it does so when every precache fetch answers with a
    response [addAll] takes (an ok status other than 206); and when one
    precache fetch fails the installation fails: nothing is stored and
    [skipWaiting] is not called. *)
Theorem install_all_or_nothing (loc : string -> request) (cs : cache_storage)
    (fuel : nat) (sched : list choice) :
  let m := run (8 + fuel) sched (dispatch_install (8 + fuel) (idle loc cs)) in
  (forall v, In (EvLifetime Install (Fulfil v)) (trace m) ->
     forall u, In u PRECACHE_URLS ->
       exists r, stored CACHE_NAME (loc u) (storage m) = Some r) /\
  (forall c1 c2 c3 rest, sched = c1 :: c2 :: c3 :: rest ->
     (forall u, In u PRECACHE_URLS ->
        exists r, net c2 (loc u) = NetOk r /\ response_ok r = true /\
                  status r <> 206%Z) ->
     In (EvLifetime Install (Fulfil VUndef)) (trace m) /\
     forall u, In u PRECACHE_URLS ->
       exists r, net c2 (loc u) = NetOk r /\
                 stored CACHE_NAME (loc u) (storage m) = Some r) /\
  (forall c1 c2 rest u msg, sched = c1 :: c2 :: rest ->
     In u PRECACHE_URLS -> net c2 (loc u) = NetFail msg ->
     In (EvLifetime Install (Reject (VErr "TypeError"))) (trace m) /\
     (forall v, ~ In (EvLifetime Install (Fulfil v)) (trace m)) /\
     ~ In OpSkipWaiting (issued (trace m)) /\
     storage m = storage_open CACHE_NAME cs).
Proof.
  cbv zeta. machine M HM. unfold dispatch_install in HM. mnorm HM. micro HM.
  assert (Hstored : forall c es u,
            fetch_all (net c) (requests_of loc PRECACHE_URLS) = Some es ->
            In u PRECACHE_URLS ->
            exists r, net c (loc u) = NetOk r /\
              stored CACHE_NAME (loc u)
                (storage_put_all CACHE_NAME es (storage_open CACHE_NAME cs)) = Some r).
  { intros c es u Hes Hu. apply fetch_all_spec in Hes as [Hkeys Hes].
    assert (In (loc u) (map fst es)) as Hin.
    { rewrite Hkeys. unfold requests_of. by apply in_map. }
    apply in_map_iff in Hin as ([q r] & Hq & Hin). cbn in Hq. subst q.
    exists r. split.
    - rewrite Forall_forall in Hes. by apply list_elem_of_In, Hes in Hin as [? _].
    - apply (stored_put_all CACHE_NAME (net c) es _ (loc u, r)); [| | done].
      + apply storage_has_open.
      + eapply Forall_impl; [exact Hes |]. by intros ? [? _]. }
  split; [|split].
  - destruct sched as [|c1 sched]; [finish HM; intros; intuition discriminate |].
    step HM. micro HM.
    destruct sched as [|c2 sched]; [finish HM; intros; intuition discriminate |].
    step HM.
    destruct (fetch_all (net c2) (requests_of loc PRECACHE_URLS)) as [es|] eqn:Hes;
      mnorm HM; micro HM.
    + destruct sched as [|c3 sched]; [finish HM; intros; intuition discriminate |].
      step HM. micro HM. finish HM. intros v _ u Hu.
      destruct (Hstored c2 es u Hes Hu) as (r & _ & Hr). eauto.
    + finish HM. intros; intuition discriminate.
  - intros c1 c2 c3 rest -> Hok.
    step HM. micro HM. step HM.
    destruct (fetch_all_complete (net c2) (requests_of loc PRECACHE_URLS)) as [es Hes].
    { intros q Hq. unfold requests_of in Hq. apply in_map_iff in Hq as (u & <- & Hu).
      destruct (Hok u Hu) as (r & Hr & Hrok & Hrs). exists r.
      split; [done |]. by apply addable_ok. }
    rewrite Hes in HM. mnorm HM. micro HM. step HM. micro HM. finish HM.
    split; [intuition |]. intros u Hu. by apply Hstored.
  - intros c1 c2 rest u msg -> Hu Hfail.
    step HM. micro HM. step HM.
    rewrite (fetch_all_fail (net c2) (requests_of loc PRECACHE_URLS) (loc u) msg) in HM;
      [| unfold requests_of; by apply in_map | done].
    mnorm HM. micro HM. finish HM.
    split; [intuition |]. split; [intros v; intuition discriminate |].
    split; [intuition discriminate | done].
Qed.

(** ** Activation *)

(** *** The purge, [keys => Promise.all(keys.filter(...).map(...))] *)

Lemma map_delete_cons (k : string) (keys : list value) (m : machine) :
  map_delete (VStr k :: keys) m =
  let (p, m1) := caches_delete k m in
  let (ps, m2) := map_delete keys m1 in
  (VPromise p :: ps, m2).
Proof. reflexivity. Qed.

Lemma caches_delete_run (k : string) (P : list pstate) J Q A ans St Tr L :
  caches_delete k (Machine P J Q A ans St Tr L) =
  (length P,
   Machine (P ++ [Pending []]) J (Q ++ [(OpDelete k, length P)]) A ans St
           (Tr ++ [EvIssue (OpDelete k)]) L).
Proof. reflexivity. Qed.

(** One deletion is started per key, in order, each with a fresh promise. *)
Lemma map_delete_run (ks : list string) (P : list pstate) J Q A ans St Tr L :
  map_delete (map VStr ks) (Machine P J Q A ans St Tr L) =
  (map VPromise (seq (length P) (length ks)),
   Machine (P ++ repeat (Pending []) (length ks)) J
           (Q ++ map delete_op (numbered (length P) ks)) A ans St
           (Tr ++ map (fun k => EvIssue (OpDelete k)) ks) L).
Proof.
  revert P Q Tr. induction ks as [|k ks IH]; intros P Q Tr.
  - cbn. by rewrite !app_nil_r.
  - cbn [map]. rewrite map_delete_cons, caches_delete_run, IH.
    rewrite length_app. cbn [length]. rewrite Nat.add_1_r.
    cbn [seq map repeat numbered length].
    rewrite <- !app_assoc. reflexivity.
Qed.

Lemma all_subscribe_cons (d i p : nat) (vs : list value) (m : machine) :
  all_subscribe d i (VPromise p :: vs) m =
  let (_, m1) := subscribe p (all_reaction d i) m in
  all_subscribe d (S i) vs m1.
Proof. reflexivity. Qed.

Lemma subscribe_pending (p : nat) (r : reaction) (rs : list reaction)
    (P : list pstate) J Q A ans St Tr L :
  P !! p = Some (Pending rs) ->
  subscribe p r (Machine P J Q A ans St Tr L) =
  (tt, Machine (<[p := Pending (rs ++ [r])]> P) J Q A ans St Tr L).
Proof. intros H. unfold subscribe. cbn [promises]. rewrite H. reflexivity. Qed.

(** [Promise.all] puts its reaction on every element. *)
Lemma all_subscribe_run (d : nat) (k : nat) (i : nat) (Pa Pb : list pstate)
    J Q A ans St Tr L :
  all_subscribe d i (map VPromise (seq (length Pa) k))
    (Machine (Pa ++ repeat (Pending []) k ++ Pb) J Q A ans St Tr L) =
  (tt, Machine (Pa ++ map (fun j => Pending [all_reaction d j]) (seq i k) ++ Pb)
         J Q A ans St Tr L).
Proof.
  revert i Pa. induction k as [|k IH]; intros i Pa.
  - reflexivity.
  - cbn [seq map repeat]. rewrite all_subscribe_cons.
    rewrite (subscribe_pending _ _ []); [| by rewrite lookup_fresh0].
    rewrite insert_fresh0. cbn [app insert list_insert].
    specialize (IH (S i) (Pa ++ [Pending [all_reaction d i]])%list).
    rewrite length_app, Nat.add_1_r in IH. cbn [length] in IH.
    rewrite <- !app_assoc in IH. cbn [app] in IH. exact IH.
Qed.

Lemma promise_all_run (k : nat) (Pa : list pstate) J Q A ans St Tr L :
  promise_all (map VPromise (seq (length Pa) (S k)))
    (Machine (Pa ++ repeat (Pending []) (S k)) J Q A ans St Tr L) =
  (length Pa + S k,
   Machine (Pa ++ map (fun j => Pending [all_reaction (length Pa + S k) j]) (seq 0 (S k))
               ++ [Pending []])
           J Q ((length Pa + S k, (S k, repeat VUndef (S k))) :: A) ans St Tr L).
Proof.
  unfold promise_all, bind, new_promise, modify, ret, set_alls, set_promises.
  cbn [promises alls jobs pending answered storage trace location].
  rewrite !length_map, !length_seq, length_app, repeat_length.
  cbn [seq map]. rewrite <- app_assoc.
  change (VPromise (length Pa) :: map VPromise (seq (S (length Pa)) k))
    with (map VPromise (seq (length Pa) (S k))).
  rewrite all_subscribe_run. reflexivity.
Qed.

(** [Promise.all([])] is fulfilled at once. *)
Lemma promise_all_empty (P : list pstate) J Q A ans St Tr L :
  promise_all [] (Machine P J Q A ans St Tr L) =
  (length P,
   Machine (P ++ [Settled (Fulfil (VArr []))]) J Q ((length P, (0, [])) :: A)
           ans St Tr L).
Proof.
  unfold promise_all, bind, new_promise, modify, ret, settle_promise,
    set_alls, set_promises, set_jobs.
  cbn [promises alls jobs pending answered storage trace location length repeat].
  rewrite lookup_fresh0. cbn [lookup list_lookup]. rewrite insert_fresh0.
  cbn. by rewrite app_nil_r.
Qed.

(** *** Lists of events *)

Lemma issued_app (t1 t2 : list event) : issued (t1 ++ t2) = (issued t1 ++ issued t2)%list.
Proof.
  induction t1 as [|e t1 IH]; cbn; [done |]. destruct e; cbn; by rewrite IH.
Qed.

Lemma issued_deletes (ks : list string) :
  issued (map (fun k => EvIssue (OpDelete k)) ks) = map OpDelete ks.
Proof. induction ks as [|k ks IH]; cbn; [done |]. by rewrite IH. Qed.

(** *** The promise table behind a row of reactions *)

Lemma lookup_map_seq_end {A} (F : nat -> A) (j n : nat) (Y : list A) :
  (map F (seq j n) ++ Y)%list !! n = Y !! 0.
Proof.
  rewrite lookup_app_r; rewrite length_map, length_seq; [| lia]. f_equal. lia.
Qed.

Lemma insert_map_seq_end {A} (F : nat -> A) (j n : nat) (Y : list A) (y : A) :
  <[n := y]> (map F (seq j n) ++ Y)%list = (map F (seq j n) ++ <[0 := y]> Y)%list.
Proof.
  rewrite insert_app_r_alt; rewrite length_map, length_seq; [| lia].
  by rewrite Nat.sub_diag.
Qed.

Lemma lookup_map_seq {A} (F : nat -> A) (j n i : nat) (Y : list A) :
  i < n -> (map F (seq j n) ++ Y)%list !! i = Some (F (j + i)).
Proof.
  intros Hi. rewrite lookup_app_l by (rewrite length_map, length_seq; lia).
  rewrite list_lookup_fmap, lookup_seq_lt by lia. reflexivity.
Qed.

Lemma lookup_behind {A} (a b c : A) (l : list A) (i : nat) :
  (a :: b :: c :: l) !! (3 + i) = l !! i.
Proof. reflexivity. Qed.

(** [cbn] leaves the list instances of [lookup] and [insert] wrapped;
    bring them back to the plain ones. *)
Ltac fold_table H :=
  repeat match type of H with
    | context C [@lookup nat pstate (list pstate) ?inst ?i ?l] =>
        lazymatch inst with
        | @list_lookup pstate => fail
        | _ =>
            let T' := context C [@lookup nat pstate (list pstate)
                                   (@list_lookup pstate) i l] in
            change T' in H
        end
    | context C [@insert nat pstate (list pstate) ?inst ?i ?x ?l] =>
        lazymatch inst with
        | @list_insert pstate => fail
        | _ =>
            let T' := context C [@insert nat pstate (list pstate)
                                   (@list_insert pstate) i x l] in
            change T' in H
        end
    end.

Ltac acbn H := tcbn H; fold_table H.

Ltac amicro H :=
  repeat first [ rewrite drain_nil in H by reflexivity
               | erewrite drain_cons in H by reflexivity; munfold H; acbn H ].

(** The purge on any machine: a deletion per old key, and [Promise.all]
    over their promises. *)
Lemma purge_run (ks : list string) (Pa : list pstate) J Q A ans St Tr L :
  let old := List.filter (fun k => negb (String.eqb k CACHE_NAME)) ks in
  let n := length old in
  let d := length Pa + n in
  call K_activate_purge (VArr (map VStr ks)) (Machine Pa J Q A ans St Tr L) =
  (Return (VPromise d),
   Machine (Pa ++ map (fun j => Pending [all_reaction d j]) (seq 0 n)
               ++ [match n with 0 => Settled (Fulfil (VArr [])) | _ => Pending [] end])
           J (Q ++ map delete_op (numbered (length Pa) old))
           ((d, (n, repeat VUndef n)) :: A) ans St
           (Tr ++ map (fun k => EvIssue (OpDelete k)) old) L).
Proof.
  cbv zeta. unfold call. unfold bind at 1. rewrite filter_not_current, map_delete_run.
  unfold bind, ret.
  destruct (List.filter _ ks) as [|k old].
  - cbn [length seq map repeat]. rewrite app_nil_r. rewrite promise_all_empty.
    rewrite Nat.add_0_r. reflexivity.
  - cbn [length]. rewrite promise_all_run. reflexivity.
Qed.

Lemma no_old_keys (cs : cache_storage) :
  old_keys cs = [] -> List.filter is_current cs = cs.
Proof.
  intros H. apply filter_all. intros [k c] Hin. unfold is_current. cbn [fst].
  destruct (String.eqb k CACHE_NAME) eqn:E; [done |]. exfalso.
  assert (In k (old_keys cs)) as Hk; [| by rewrite H in Hk].
  unfold old_keys. apply filter_In. split; [| by rewrite E].
  unfold storage_keys. change k with (fst (k, c)). by apply in_map.
Qed.

(** *** The moves of an activation *)

(** The first move completes [caches.keys()]: the purge runs, and
    either deletions are in flight or, with no old generation, the claim. *)
Lemma activate_first_move (loc : string -> request) (cs : cache_storage)
    (fuel : nat) (c : choice) :
  activation cs loc (8 + fuel) (length (old_keys cs) + 1)
    (host_step (8 + fuel) c (dispatch_activate (8 + fuel) (idle loc cs))).
Proof.
  remember (host_step _ _ _) as M eqn:HM.
  unfold dispatch_activate in HM. mnorm HM. micro HM.
  erewrite host_step_at in HM by reflexivity.
  munfold HM. tcbn HM.
  erewrite drain_cons in HM by reflexivity.
  unfold run_job, exec, set_jobs in HM.
  cbn [on_fulfilled derived jobs promises pending alls answered storage trace location]
    in HM.
  unfold bind at 1 in HM. rewrite purge_run in HM. fold (old_keys cs) in HM.
  unfold activation.
  destruct (length (old_keys cs)) as [|n'] eqn:En.
  - munfold HM. acbn HM. amicro HM.
    apply nil_length_inv in En. rewrite En in HM. cbn in HM.
    right. right. left. split; [done |]. subst M.
    split; cbn; try done.
    + by rewrite no_old_keys.
    + by right; left.
    + intros s. intuition discriminate.
  - munfold HM. acbn HM. rewrite lookup_map_seq_end in HM. acbn HM.
    rewrite insert_map_seq_end in HM. acbn HM. amicro HM.
    right. left. exists (numbered 3 (old_keys cs)).
    rewrite numbered_length, En.
    split; [lia |]. split.
    { intros Hnil. apply (f_equal (@length _)) in Hnil.
      rewrite numbered_length, En in Hnil. discriminate. }
    subst M. split; cbn [jobs pending promises alls storage trace]; try done.
    + rewrite numbered_ids. apply NoDup_ListNoDup, seq_NoDup.
    + intros p k Hin. apply numbered_In in Hin as [Hp Hk]. rewrite En in Hp.
      split; [lia |]. split; [by apply old_keys_not_current in Hk |].
      assert (exists i, p = 3 + i) as [i ->] by (exists (p - 3); lia).
      exists i. rewrite lookup_behind.
      exact (lookup_map_seq _ 0 (S n') i _ ltac:(lia)).
    + rewrite (lookup_behind _ _ _ _ (S n')).
      exact (lookup_map_seq_end _ 0 (S n') _).
    + cbn [length]. rewrite length_app, length_map, length_seq. cbn. lia.
    + exists (VUndef :: repeat VUndef n'). rewrite numbered_length, En. cbn.
      by rewrite Nat.eqb_refl.
    + intros [k c'] Hin. unfold is_current. cbn [fst].
      destruct (String.eqb k CACHE_NAME) eqn:E; [by left | right].
      rewrite numbered_keys. unfold old_keys. apply filter_In. split; [| by rewrite E].
      unfold storage_keys. change k with (fst (k, c')). by apply in_map.
    + cbn [issued]. rewrite issued_deletes. intros [? | Hin]; [discriminate |].
      apply in_map_iff in Hin as (? & ? & _). discriminate.
    + intros s [? | [? | Hin]]; try discriminate.
      apply in_map_iff in Hin as (? & ? & _). discriminate.
Qed.


Lemma purging_move (cs : cache_storage) (n : nat) (R : list (nat * string))
    (m : machine) (fuel : nat) (c : choice) :
  purging cs n R m -> R <> [] ->
  let m' := host_step (8 + fuel) c m in
  (exists R', length R = S (length R') /\ R' <> [] /\ purging cs n R' m') \/
  (length R = 1 /\ claiming cs n m').
Proof.
  intros [Hj Hp Hnd Hel Hth Hw Hall Hlen [vals Hcnt] Hcur Hold Hnc Hnw] Hne.
  destruct m as [P J Q A ans St Tr L]. cbn in *. subst J Q.
  destruct (extract_is_Some (pick c) R Hne) as ([p k] & R' & Hex).
  destruct (extract_spec _ _ _ _ Hex) as (R1 & R2 & HR & HR').
  destruct (Hel p k) as (Hp3 & Hk & i & HPp).
  { rewrite HR. apply in_elt. }
  assert (HlenR : length R = S (length R')).
  { rewrite HR, HR', !length_app. cbn. lia. }
  remember (host_step _ _ _) as M eqn:HM.
  erewrite host_step_at in HM; [| cbn [pending]; rewrite extract_map, Hex; reflexivity].
  munfold HM. rewrite HPp in HM. cbn [app map] in HM. unfold all_reaction in HM.
  erewrite drain_cons in HM by reflexivity. munfold HM.
  rewrite Hcnt, HlenR in HM. cbn [Nat.pred] in HM.
  destruct R' as [|r' R''].
  - cbn [length Nat.eqb] in HM.
    rewrite list_lookup_insert_ne, Hall in HM by lia.
    cbn [app map] in HM.
    erewrite drain_cons in HM by reflexivity. munfold HM.
    rewrite list_lookup_insert_ne, list_lookup_insert_ne, Hth in HM by lia.
    cbn [app map] in HM. unfold claim_reaction in HM.
    erewrite drain_cons in HM by reflexivity. munfold HM.
    rewrite !length_insert, Hlen in HM.
    cbn [Nat.eqb] in HM. munfold HM.
    rewrite lookup_app_r in HM by (rewrite !length_insert; lia).
    rewrite !length_insert, Hlen, Nat.sub_diag in HM.
    cbn [lookup list_lookup] in HM. fold_table HM.
    rewrite insert_app_r_alt in HM by (rewrite !length_insert; lia).
    rewrite !length_insert, Hlen, Nat.sub_diag in HM.
    cbn [app insert list_insert] in HM. fold_table HM.
    rewrite drain_nil in HM by reflexivity.
    right. split; [by rewrite HlenR |].
    assert (R1 = [] /\ R2 = []) as [-> ->].
    { symmetry in HR'. by apply app_eq_nil in HR'. }
    cbn [app] in HR. subst R. subst M.
    split; cbn [jobs pending promises storage trace]; try done.
    + rewrite lookup_app_r by (rewrite !length_insert; lia).
      rewrite !length_insert, Hlen. cbn [Nat.add]. by rewrite Nat.sub_diag.
    + rewrite lookup_app_l by (rewrite !length_insert; lia).
      rewrite !list_lookup_insert_ne by lia. exact Hw.
    + rewrite <- Hcur, <- (storage_delete_current k St Hk). symmetry.
      apply filter_all. intros kc Hin. apply storage_delete_In in Hin as [Hin Hkc].
      destruct (Hold kc Hin) as [? | [? | []]]; [done |]. cbn in *. congruence.
    + rewrite !issued_app. cbn. apply in_app_iff. right. by left.
    + intros s Hin. rewrite !in_app_iff in Hin. cbn in Hin.
      destruct Hin as [[Hin | [? | []]] | [? | []]]; try discriminate. by apply (Hnw s).
  - cbn [length Nat.eqb] in HM. rewrite drain_nil in HM by reflexivity.
    set (R' := r' :: R'') in *.
    left. exists R'. split; [done |]. split; [done |].
    assert (Hnd' : List.NoDup (map fst R1 ++ p :: map fst R2)).
    { apply NoDup_ListNoDup. by rewrite HR, map_app in Hnd. }
    assert (Hin' : forall p' k', In (p', k') R' -> In (p', k') R /\ p' <> p).
    { intros p' k' Hin. split.
      - rewrite HR. rewrite HR' in Hin. apply in_app_iff in Hin. apply in_app_iff.
        destruct Hin; [by left | right; by right].
      - intros ->. apply NoDup_remove_2 in Hnd'. apply Hnd'.
        rewrite <- map_app, <- HR'. change p with (fst (p, k')). by apply in_map. }
    subst M.
    split; cbn [jobs pending promises alls storage trace]; try done.
    + apply NoDup_ListNoDup. rewrite HR', map_app. by apply NoDup_remove_1 in Hnd'.
    + intros p' k' Hin. destruct (Hin' p' k' Hin) as [HinR Hpp].
      destruct (Hel p' k' HinR) as (H1 & H2 & i' & H3).
      split; [done |]. split; [done |]. exists i'.
      by rewrite list_lookup_insert_ne.
    + by rewrite list_lookup_insert_ne by lia.
    + by rewrite list_lookup_insert_ne by lia.
    + by rewrite list_lookup_insert_ne by lia.
    + by rewrite length_insert.
    + eexists. cbn [all_lookup Nat.add]. rewrite Nat.eqb_refl. reflexivity.
    + by rewrite storage_delete_current.
    + intros kc Hin. apply storage_delete_In in Hin as [Hin Hkc].
      destruct (Hold kc Hin) as [? | Hin2]; [by left | right].
      rewrite HR, map_app in Hin2. rewrite HR', map_app.
      apply in_app_iff in Hin2. apply in_app_iff.
      destruct Hin2 as [? | [? | ?]]; [by left | done | by right].
    + rewrite issued_app. cbn. by rewrite app_nil_r.
    + intros s Hin. apply in_app_iff in Hin. cbn in Hin.
      destruct Hin as [Hin | [? | []]]; [by apply (Hnw s) | discriminate].
Qed.

Lemma claiming_move (cs : cache_storage) (n : nat) (m : machine) (fuel : nat) (c : choice) :
  claiming cs n m -> activated cs (host_step (8 + fuel) c m).
Proof.
  intros [Hj Hp Hc Hw Hs Hcl Hnw].
  destruct m as [P J Q A ans St Tr L]. cbn in *. subst J Q.
  remember (host_step _ _ _) as M eqn:HM.
  erewrite host_step_at in HM by reflexivity.
  munfold HM. rewrite Hc in HM. cbn [app map] in HM.
  erewrite drain_cons in HM by reflexivity. munfold HM.
  rewrite list_lookup_insert_ne, Hw in HM by lia. cbn [app map] in HM.
  unfold extend_reaction in HM.
  erewrite drain_cons in HM by reflexivity. munfold HM.
  rewrite drain_nil in HM by reflexivity.
  subst M. split; cbn [jobs pending promises alls storage trace]; try done.
  - rewrite !issued_app. apply in_app_iff. left. apply in_app_iff. by left.
  - apply in_app_iff. right. by left.
  - intros s Hin. rewrite !in_app_iff in Hin. cbn in Hin.
    destruct Hin as [[Hin | [? | []]] | [Heq | []]]; try discriminate.
    + by destruct (Hnw s).
    + by injection Heq as <-.
Qed.

Lemma activated_stable (cs : cache_storage) (m : machine) (fuel : nat) (c : choice) :
  activated cs m -> activated cs (host_step fuel c m).
Proof. intros H. by rewrite host_step_quiet by apply H. Qed.

Lemma activation_move (cs : cache_storage) (loc : string -> request) (fuel k : nat)
    (m : machine) (c : choice) :
  activation cs loc (8 + fuel) k m ->
  activation cs loc (8 + fuel) (pred k) (host_step (8 + fuel) c m).
Proof.
  unfold activation.
  intros [[-> ->] | [(R & -> & Hne & Hpg) | [[-> Hcl] | [-> Hac]]]].
  - rewrite Nat.add_succ_r. cbn [pred].
    destruct (activate_first_move loc cs fuel c) as [[? _] | H]; [lia | by right].
  - rewrite Nat.add_1_r. cbn [pred].
    destruct (purging_move cs _ R m fuel c Hpg Hne) as [(R' & Hlen & Hne' & Hpg') | [Hlen Hcl]].
    + right. left. exists R'. split; [lia | done].
    + right. right. left. split; [lia | done].
  - right. right. right. split; [done |]. by eapply claiming_move.
  - right. right. right. split; [done |]. by apply activated_stable.
Qed.

Lemma activation_run (cs : cache_storage) (loc : string -> request) (fuel : nat)
    (sched : list choice) (k : nat) (m : machine) :
  activation cs loc (8 + fuel) k m ->
  activation cs loc (8 + fuel) (k - length sched) (run (8 + fuel) sched m).
Proof.
  revert k m. induction sched as [|c sched IH]; intros k m H.
  - by rewrite Nat.sub_0_r.
  - rewrite run_cons. cbn [length].
    replace (k - S (length sched)) with (pred k - length sched) by lia.
    apply IH. by apply activation_move.
Qed.

Lemma activate_dispatched (loc : string -> request) (cs : cache_storage) (fuel : nat) :
  trace (dispatch_activate (8 + fuel) (idle loc cs)) = [EvIssue OpKeys].
Proof.
  remember (dispatch_activate _ _) as M eqn:HM.
  unfold dispatch_activate in HM. mnorm HM. micro HM. by subst M.
Qed.

(** C6.  The activate handler, on any cache storage [cs] and under every
    order in which the platform settles the operations in flight:
    [clients.claim()] is issued only once every generation whose name differs
    from [CACHE_NAME] has been deleted, the generation named [CACHE_NAME]
    being left as it was; the promise given to [waitUntil] is never rejected
    and is fulfilled only after the claim; it is fulfilled once the platform
    has settled [keys()], each deletion and the claim.  Cache names being
    distinct, at most one generation then remains, and it is [CACHE_NAME]. *)
Theorem activate_purges_then_claims (cs : cache_storage) (loc : string -> request)
    (fuel : nat) (sched : list choice) :
  let m := run (8 + fuel) sched (dispatch_activate (8 + fuel) (idle loc cs)) in
  (In OpClaim (issued (trace m)) -> storage m = List.filter is_current cs) /\
  (forall s, In (EvLifetime Activate s) (trace m) ->
     s = Fulfil VUndef /\ In OpClaim (issued (trace m))) /\
  (length (old_keys cs) + 2 <= length sched ->
     In (EvLifetime Activate (Fulfil VUndef)) (trace m) /\
     storage_keys (storage m) = List.filter (String.eqb CACHE_NAME) (storage_keys cs) /\
     (NoDup (storage_keys cs) -> length (storage m) <= 1)).
Proof.
  intros m.
  pose proof (activation_run cs loc fuel sched (length (old_keys cs) + 2) _
                (or_introl (conj eq_refl eq_refl))) as H.
  fold m in H. unfold activation in H.
  destruct H as [[Hk ->] | [(R & Hk & Hne & Hpg) | [[Hk Hcl] | [Hk Hac]]]].
  - rewrite activate_dispatched. cbn.
    split; [intros [? | []]; discriminate |].
    split; [intros s [? | []]; discriminate | lia].
  - destruct Hpg. split; [done |]. split; [intros s Hin; by destruct (pg_waiting0 s) |].
    intros Hn. destruct R; [done | cbn in Hk; lia].
  - destruct Hcl. split; [done |]. split; [intros s Hin; by destruct (cl_waiting0 s) | lia].
  - destruct Hac. split; [done |]. split; [intros s Hin; split; [by apply ac_only0 | done] |].
    intros _. split; [done |]. rewrite ac_storage0. split.
    + unfold storage_keys. clear. induction cs as [|[k c] cs' IH]; [done |].
      cbn [List.filter map fst]. unfold is_current at 1. cbn [fst].
      rewrite (String.eqb_sym CACHE_NAME k).
      destruct (String.eqb k CACHE_NAME); cbn [map fst]; by rewrite IH.
    + apply current_at_most_one.
Qed.

(** * Further properties *)

(** ** The fetch listener, over every schedule *)

(** Whatever the tier and the schedule, the listener starts nothing but a
    lookup or a fetch of the event's request, the opening of the current
    generation and a put of the event's request there (or leaves the
    request to the platform): it lists or deletes no generation, and
    starts at most one fetch. *)
Theorem router_operations (loc : string -> request) (cs : cache_storage)
    (fuel ev : nat) (req : request) (sched : list choice) :
  let m := run (8 + fuel) sched (dispatch_fetch (8 + fuel) ev req (idle loc cs)) in
  Forall (router_op ev req) (issued (trace m)) /\
  (fetches (trace m) = [] \/ fetches (trace m) = [OpFetch req]).
Proof.
  cbv zeta. machine M HM.
  destruct (classify req) eqn:H; dispatch H HM;
    explore HM ltac:(subst M; cbn; split; [repeat constructor | auto]).
Qed.

(** The handler never has two operations in flight: each one is started by
    the continuation of the one before. *)
Theorem router_sequential (loc : string -> request) (cs : cache_storage)
    (fuel ev : nat) (req : request) (sched : list choice) :
  let m := run (8 + fuel) sched (dispatch_fetch (8 + fuel) ev req (idle loc cs)) in
  length (pending m) <= 1 /\ jobs m = [].
Proof.
  cbv zeta. machine M HM.
  destruct (classify req) eqn:H; dispatch H HM;
    explore HM ltac:(subst M; cbn; split; [lia | reflexivity]).
Qed.

(** A request that is not bypassed is answered by the worker: the listener
    calls [respondWith] before it returns, so the platform never fetches on
    its own; the promise it gave is settled once two of the operations it
    started have settled, whatever the cache writes still in flight;
    and after four settlements nothing is left in flight. *)
Theorem router_answers (loc : string -> request) (cs : cache_storage)
    (fuel ev : nat) (req : request) (sched : list choice) :
  classify req <> Bypass ->
  let m0 := dispatch_fetch (8 + fuel) ev req (idle loc cs) in
  let m := run (8 + fuel) sched m0 in
  answered m0 = true /\
  (forall q, ~ In (OpPassthrough ev q) (issued (trace m))) /\
  (2 <= length sched -> exists s, handler_result ev (trace m) = Some s) /\
  (4 <= length sched -> pending m = [] /\ jobs m = []).
Proof.
  intros Hb. cbv zeta. split; [|split; [|split]].
  - machine M HM. destruct (classify req) eqn:H; [done | ..]; dispatch H HM; by subst M.
  - machine M HM. destruct (classify req) eqn:H; [done | ..]; dispatch H HM;
      explore HM ltac:(subst M; cbn; intros; intuition discriminate).
  - intros Hlen. machine M HM. destruct (classify req) eqn:H; [done | ..]; dispatch H HM;
      explore HM ltac:(subst M; cbn in *; rewrite ?Nat.eqb_refl; first [lia | eauto]).
  - intros Hlen. machine M HM. destruct (classify req) eqn:H; [done | ..]; dispatch H HM;
      explore HM ltac:(subst M; cbn in *; first [lia | done]).
Qed.

(** Handling a request leaves the entries of every other request as they
    were, in every generation; and with the network down for the request
    the storage as a whole stays as it was. *)
Theorem router_frame (loc : string -> request) (cs : cache_storage)
    (fuel ev : nat) (req : request) (sched : list choice) :
  let m := run (8 + fuel) sched (dispatch_fetch (8 + fuel) ev req (idle loc cs)) in
  (forall name q, q <> req -> stored name q (storage m) = stored name q cs) /\
  ((forall c r, In c sched -> net c req <> NetOk r) -> storage m = cs).
Proof.
  cbv zeta. split.
  - intros name q Hq. machine M HM.
    destruct (classify req) eqn:H; dispatch H HM;
      explore HM ltac:(subst M; cbn; rewrite ?stored_put_frame, ?stored_open_frame by done; done).
  - intros Hoff. machine M HM.
    destruct (classify req) eqn:H; dispatch H HM;
      explore HM ltac:(subst M; cbn;
                       first [ done
                             | exfalso;
                               match goal with
                               | E : net ?c req = NetOk ?r |- _ =>
                                   apply (Hoff c r); [cbn; tauto | exact E]
                               end ]).
Qed.

(** What the current generation holds for the request after any run of the
    handler is what it held before, or a response the network gave for
    this request during the run. *)
Theorem stored_from_network (loc : string -> request) (cs : cache_storage)
    (fuel ev : nat) (req : request) (sched : list choice) :
  let m := run (8 + fuel) sched (dispatch_fetch (8 + fuel) ev req (idle loc cs)) in
  stored CACHE_NAME req (storage m) = stored CACHE_NAME req cs \/
  exists c r, In c sched /\ net c req = NetOk r /\
              stored CACHE_NAME req (storage m) = Some r.
Proof.
  cbv zeta. machine M HM.
  destruct (classify req) eqn:H; dispatch H HM;
    explore HM ltac:(subst M; cbn;
      first [ left; rewrite ?stored_open_frame; reflexivity
            | match goal with
              | E : net ?c req = NetOk ?r |- _ =>
                  right; exists c, r;
                  split; [cbn; tauto |];
                  split; [exact E | apply stored_put_eq, storage_has_open]
              end ]).
Qed.

(** The network-first tier, when the fetch succeeds, never reads the cache. *)
Theorem network_first_skips_cache (loc : string -> request) (cs : cache_storage)
    (fuel ev : nat) (req : request) (c1 : choice) (sched : list choice)
    (resp : response) :
  classify req = NetworkFirst ->
  net c1 req = NetOk resp ->
  let m := run (8 + fuel) (c1 :: sched) (dispatch_fetch (8 + fuel) ev req (idle loc cs)) in
  forall q, ~ In (OpMatch q) (issued (trace m)).
Proof.
  intros H Hnet. cbv zeta. intros q. machine M HM. dispatch H HM.
  step HM. rewrite Hnet in HM. mnorm HM. micro HM.
  explore HM ltac:(subst M; cbn; intuition discriminate).
Qed.

(** The page is served before the cache is written: once the fetch has
    succeeded (after a miss, in the tiers that look up first) the response
    is delivered, while the storage is still as it was and the opening of
    the current generation is in flight. *)
Theorem served_before_stored (loc : string -> request) (cs : cache_storage)
    (fuel ev : nat) (req : request) (c1 c2 : choice) (resp : response) :
  let m0 := dispatch_fetch (8 + fuel) ev req (idle loc cs) in
  (classify req = NetworkFirst -> net c1 req = NetOk resp ->
     let m := run (8 + fuel) [c1] m0 in
     delivered ev (trace m) = Some (Served resp) /\ storage m = cs /\
     exists p, pending m = [(OpOpen CACHE_NAME, p)]) /\
  (classify req = CacheFirst \/ classify req = RevalidateCss \/
   classify req = RevalidateDefault ->
   storage_match req cs = None -> net c2 req = NetOk resp ->
     let m := run (8 + fuel) [c1; c2] m0 in
     delivered ev (trace m) = Some (Served resp) /\ storage m = cs /\
     exists p, pending m = [(OpOpen CACHE_NAME, p)]).
Proof.
  cbv zeta. split.
  - intros H Hnet. machine M HM. dispatch H HM.
    step HM. rewrite Hnet in HM. mnorm HM. micro HM. finish HM. eauto.
  - intros H Hc Hnet. machine M HM.
    destruct H as [H | [H | H]]; dispatch H HM; step HM; rewrite Hc in HM; mnorm HM;
      micro HM; step HM; rewrite Hnet in HM; mnorm HM; micro HM; finish HM; eauto.
Qed.

(** With nothing cached for the request and the network down, the page gets
    a network error in every caching tier, whether the handler's promise
    rejects or is fulfilled with [undefined]; the storage is not touched
    and nothing is left in flight. *)
Theorem nothing_cached_network_down (loc : string -> request) (cs : cache_storage)
    (fuel ev : nat) (req : request) (c1 c2 : choice) (sched : list choice)
    (msg1 msg2 : string) :
  classify req <> Bypass ->
  storage_match req cs = None ->
  net c1 req = NetFail msg1 -> net c2 req = NetFail msg2 ->
  let m := run (8 + fuel) (c1 :: c2 :: sched)
             (dispatch_fetch (8 + fuel) ev req (idle loc cs)) in
  delivered ev (trace m) = Some NetworkError /\ storage m = cs /\ pending m = [].
Proof.
  intros Hb Hc Hn1 Hn2. cbv zeta. machine M HM.
  destruct (classify req) eqn:H; [done | ..]; dispatch H HM; step HM;
    rewrite ?Hc, ?Hn1 in HM; mnorm HM; micro HM;
    step HM; rewrite ?Hc, ?Hn2 in HM; mnorm HM; micro HM; by finish HM.
Qed.

(** ** The next visit *)

(** In both stale-while-revalidate tiers, when no other generation holds the
    request, the revalidation shows at the next visit: once the fetch has
    succeeded with a response that is not partial (status 206) and the
    update has run, a second request for the same URL is answered with the
    new response, whether the first was a hit or a miss. *)
Theorem revalidation_visible (loc : string -> request) (cs : cache_storage)
    (fuel ev ev' : nat) (req : request) (c1 c2 c3 c4 c5 : choice)
    (sched sched' : list choice) (resp : response) :
  classify req = RevalidateCss \/ classify req = RevalidateDefault ->
  (forall k c, In (k, c) cs -> k <> CACHE_NAME -> c !! req = None) ->
  net c2 req = NetOk resp -> status resp <> 206%Z ->
  let m := run (8 + fuel) (c1 :: c2 :: c3 :: c4 :: sched)
             (dispatch_fetch (8 + fuel) ev req (idle loc cs)) in
  let m' := run (8 + fuel) [c5] (dispatch_fetch (8 + fuel) ev' req m) in
  ev' <> ev ->
  handler_result ev' (trace m') = Some (Fulfil (VResp resp)) /\
  delivered ev' (trace m') = Some (Served resp).
Proof.
  intros H Hold Hnet Hs%partial_false. cbv zeta. intros Hev. apply Nat.eqb_neq in Hev.
  assert (Hm : storage_match req (storage_put CACHE_NAME req resp
                                    (storage_open CACHE_NAME cs)) = Some resp).
  { apply storage_match_put_current; [| apply storage_has_open].
    intros k c [Hin | [-> _]]%storage_open_In Hk; [by apply (Hold k c) | done]. }
  remember (run (8 + fuel) (c1 :: c2 :: c3 :: c4 :: sched)
              (dispatch_fetch (8 + fuel) ev req (idle loc cs))) as M eqn:HM.
  destruct H as [H | H]; dispatch H HM; step HM;
    destruct (storage_match req cs); mnorm HM; micro HM;
    step HM; rewrite Hnet in HM; mnorm HM; micro HM;
    step HM; micro HM; step HM; rewrite Hs in HM; mnorm HM; micro HM;
    rewrite run_quiet in HM by reflexivity;
    machine M' HM'; subst M;
    dispatch H HM'; step HM'; rewrite Hm in HM'; mnorm HM'; micro HM';
    finish HM'; rewrite (Nat.eqb_sym ev ev'), Hev; done.
Qed.

(** While a generation with another name, created before any generation
    called [CACHE_NAME], holds the request, the revalidation does not show:
    the update is written to the generation called [CACHE_NAME] (when the
    response is not partial), and the next request for the URL is still
    answered with what the lookup found before. *)
Theorem revalidation_shadowed (loc : string -> request) (pre : cache_storage)
    (k : string) (c : cache) (rest : cache_storage) (fuel ev ev' : nat)
    (req : request) (c1 c2 c3 c4 c5 : choice) (sched : list choice)
    (held resp : response) :
  classify req = RevalidateCss \/ classify req = RevalidateDefault ->
  Forall (fun kc => kc.1 <> CACHE_NAME) pre ->
  k <> CACHE_NAME -> c !! req = Some held ->
  net c2 req = NetOk resp ->
  let cs := (pre ++ (k, c) :: rest)%list in
  let m := run (8 + fuel) (c1 :: c2 :: c3 :: c4 :: sched)
             (dispatch_fetch (8 + fuel) ev req (idle loc cs)) in
  let m' := run (8 + fuel) [c5] (dispatch_fetch (8 + fuel) ev' req m) in
  exists old,
    storage_match req cs = Some old /\
    (status resp <> 206%Z -> stored CACHE_NAME req (storage m) = Some resp) /\
    (ev' <> ev -> handler_result ev' (trace m') = Some (Fulfil (VResp old))).
Proof.
  intros H Hpre Hk Hc Hnet. cbv zeta.
  destruct (storage_match_holder req pre k c held Hc) as [old Hold].
  exists old. split; [apply Hold |].
  assert (Hm0 : storage_match req (pre ++ (k, c) :: rest) = Some old) by apply Hold.
  assert (Hm1 : storage_match req (storage_open CACHE_NAME (pre ++ (k, c) :: rest))
                = Some old).
  { destruct (storage_open_behind CACHE_NAME pre (k, c) rest) as [t ->]. apply Hold. }
  assert (Hm2 : storage_match req
                  (storage_put CACHE_NAME req resp
                     (storage_open CACHE_NAME (pre ++ (k, c) :: rest))) = Some old).
  { destruct (storage_open_behind CACHE_NAME pre (k, c) rest) as [t ->].
    destruct (storage_put_behind CACHE_NAME req resp pre k c t Hpre Hk) as [t' ->].
    apply Hold. }
  remember (pre ++ (k, c) :: rest)%list as cs eqn:Hcs. clear Hcs Hold.
  remember (run (8 + fuel) (c1 :: c2 :: c3 :: c4 :: sched)
              (dispatch_fetch (8 + fuel) ev req (idle loc cs))) as M eqn:HM.
  destruct H as [H | H]; dispatch H HM; step HM;
    rewrite Hm0 in HM; mnorm HM; micro HM;
    step HM; rewrite Hnet in HM; mnorm HM; micro HM;
    step HM; micro HM; step HM;
    destruct (partial resp) eqn:Ep; mnorm HM; micro HM;
    rewrite run_quiet in HM by reflexivity;
    (split;
     [ intros Hs; first [ apply partial_false in Hs; congruence
                        | subst M; cbn; apply stored_put_eq, storage_has_open ] |]);
    intros Hev; apply Nat.eqb_neq in Hev;
    machine M' HM'; subst M;
    dispatch H HM'; step HM'; rewrite ?Hm1, ?Hm2 in HM'; mnorm HM'; micro HM';
    finish HM'; rewrite (Nat.eqb_sym ev ev'), Hev; done.
Qed.

(** ** Installation, over every schedule *)

(** A precache URL answered with a response that is not ok (a 404, say)
    fails the installation like a failed fetch does: the promise given to
    [waitUntil] rejects, nothing is stored and [skipWaiting] is not called.
    The fetch listener, for its part, stores such a response. *)
Theorem install_rejects_not_ok (loc : string -> request) (cs : cache_storage)
    (fuel : nat) (c1 c2 : choice) (sched : list choice) (u : string) (r : response) :
  In u PRECACHE_URLS ->
  net c2 (loc u) = NetOk r -> response_ok r = false ->
  let m := run (8 + fuel) (c1 :: c2 :: sched) (dispatch_install (8 + fuel) (idle loc cs)) in
  In (EvLifetime Install (Reject (VErr "TypeError"))) (trace m) /\
  (forall v, ~ In (EvLifetime Install (Fulfil v)) (trace m)) /\
  ~ In OpSkipWaiting (issued (trace m)) /\
  storage m = storage_open CACHE_NAME cs /\
  forall name q, stored name q (storage m) = stored name q cs.
Proof.
  intros Hu Hnet Hr. cbv zeta. machine M HM.
  unfold dispatch_install in HM. mnorm HM. micro HM.
  step HM. micro HM. step HM.
  rewrite (fetch_all_not_ok (net c2) (requests_of loc PRECACHE_URLS) (loc u) r) in HM;
    [| unfold requests_of; by apply in_map | done | by apply not_ok_not_addable].
  mnorm HM. micro HM. finish HM.
  split; [intuition |]. split; [intros v; intuition discriminate |].
  split; [intuition discriminate |]. split; [done |].
  intros name q. apply stored_open_frame.
Qed.

(** Whatever the network does and however far the installation gets, it
    starts three operations at most, in this order: opening the current
    generation, one [addAll] of the precache list, [skipWaiting]; it calls
    [skipWaiting] only with every precache URL stored, and fulfils the
    promise given to [waitUntil] only after calling it. After the third
    settlement at the latest that promise is settled and nothing is left in
    flight. *)
Theorem install_order (loc : string -> request) (cs : cache_storage)
    (fuel : nat) (sched : list choice) :
  let m := run (8 + fuel) sched (dispatch_install (8 + fuel) (idle loc cs)) in
  (exists n, issued (trace m) =
     firstn (S n) [OpOpen CACHE_NAME; OpAddAll CACHE_NAME PRECACHE_URLS; OpSkipWaiting]) /\
  (In OpSkipWaiting (issued (trace m)) ->
     forall u, In u PRECACHE_URLS ->
       exists r, stored CACHE_NAME (loc u) (storage m) = Some r) /\
  (forall v, In (EvLifetime Install (Fulfil v)) (trace m) ->
     In OpSkipWaiting (issued (trace m))) /\
  (3 <= length sched ->
     pending m = [] /\ exists s, In (EvLifetime Install s) (trace m)).
Proof.
  cbv zeta. machine M HM. unfold dispatch_install in HM. mnorm HM. micro HM.
  assert (Hstored : forall c es u,
            fetch_all (net c) (requests_of loc PRECACHE_URLS) = Some es ->
            In u PRECACHE_URLS ->
            exists r,
              stored CACHE_NAME (loc u)
                (storage_put_all CACHE_NAME es (storage_open CACHE_NAME cs)) = Some r).
  { intros c es u Hes Hu. apply fetch_all_spec in Hes as [Hkeys Hes].
    assert (In (loc u) (map fst es)) as Hin.
    { rewrite Hkeys. unfold requests_of. by apply in_map. }
    apply in_map_iff in Hin as ([q r] & Hq & Hin). cbn in Hq. subst q.
    exists r. apply (stored_put_all CACHE_NAME (net c) es _ (loc u, r)); [| | done].
    - apply storage_has_open.
    - eapply Forall_impl; [exact Hes |]. by intros ? [? _]. }
  destruct sched as [|c1 sched].
  { finish HM. split; [by exists 0 |]. repeat split; intuition (discriminate || lia). }
  step HM. micro HM.
  destruct sched as [|c2 sched].
  { finish HM. split; [by exists 1 |]. repeat split; intuition (discriminate || lia). }
  step HM.
  destruct (fetch_all (net c2) (requests_of loc PRECACHE_URLS)) as [es|] eqn:Hes;
    mnorm HM; micro HM.
  - destruct sched as [|c3 sched].
    { finish HM. split; [by exists 2 |]. split; [eauto |].
      repeat split; intuition (discriminate || lia). }
    step HM. micro HM. finish HM. split; [by exists 2 |]. split; [eauto |].
    split; [intuition |]. intros _. split; [done |]. eexists. intuition.
  - finish HM. split; [by exists 1 |].
    split; [intuition discriminate |]. split; [intuition discriminate |].
    intros _. split; [done |]. eexists. intuition.
Qed.

(** The installation writes the current generation only, and there only
    entries of the precache list: every other generation and every other
    entry is left as it was, whether the installation succeeds or fails. *)
Theorem install_frame (loc : string -> request) (cs : cache_storage)
    (fuel : nat) (sched : list choice) :
  let m := run (8 + fuel) sched (dispatch_install (8 + fuel) (idle loc cs)) in
  (forall k, k <> CACHE_NAME -> storage_lookup k (storage m) = storage_lookup k cs) /\
  (forall name q, ~ In q (requests_of loc PRECACHE_URLS) ->
     stored name q (storage m) = stored name q cs).
Proof.
  cbv zeta. machine M HM. unfold dispatch_install in HM. mnorm HM. micro HM.
  destruct sched as [|c1 sched]; [by finish HM |].
  step HM. micro HM.
  destruct sched as [|c2 sched].
  { finish HM. split; intros; [by apply storage_lookup_open_other | apply stored_open_frame]. }
  step HM.
  destruct (fetch_all (net c2) (requests_of loc PRECACHE_URLS)) as [es|] eqn:Hes;
    mnorm HM; micro HM.
  - apply fetch_all_spec in Hes as [Hkeys _].
    assert (Hgoal :
      (forall k, k <> CACHE_NAME ->
         storage_lookup k (storage_put_all CACHE_NAME es (storage_open CACHE_NAME cs))
         = storage_lookup k cs) /\
      (forall name q, ~ In q (requests_of loc PRECACHE_URLS) ->
         stored name q (storage_put_all CACHE_NAME es (storage_open CACHE_NAME cs))
         = stored name q cs)).
    { split.
      - intros k Hk. by rewrite storage_lookup_put_all_other, storage_lookup_open_other.
      - intros name q Hq. rewrite stored_put_all_frame, stored_open_frame; [done |].
        by rewrite Hkeys. }
    destruct sched as [|c3 sched].
    + finish HM. exact Hgoal.
    + step HM. micro HM. finish HM. exact Hgoal.
  - finish HM. split; intros; [by apply storage_lookup_open_other | apply stored_open_frame].
Qed.

(** ** Activation, over every schedule *)

Lemma activation_complete (cs : cache_storage) (loc : string -> request) (fuel : nat)
    (sched : list choice) :
  length (old_keys cs) + 2 <= length sched ->
  activated cs (run (8 + fuel) sched (dispatch_activate (8 + fuel) (idle loc cs))).
Proof.
  intros Hlen.
  pose proof (activation_run cs loc fuel sched (length (old_keys cs) + 2) _
                (or_introl (conj eq_refl eq_refl))) as H.
  unfold activation in H.
  destruct H as [[Hk _] | [(R & Hk & _) | [[Hk _] | [_ Hac]]]]; [lia | lia | lia | done].
Qed.

Lemma activate_dispatched_storage (loc : string -> request) (cs : cache_storage)
    (fuel : nat) :
  storage (dispatch_activate (8 + fuel) (idle loc cs)) = cs.
Proof.
  remember (dispatch_activate _ _) as M eqn:HM.
  unfold dispatch_activate in HM. mnorm HM. micro HM. by subst M.
Qed.

(** At every moment of the activation, under every schedule, the current
    generation holds what it held before: the purge never touches an entry
    of the generation called [CACHE_NAME]. *)
Theorem activate_keeps_current (cs : cache_storage) (loc : string -> request)
    (fuel : nat) (sched : list choice) (q : request) :
  let m := run (8 + fuel) sched (dispatch_activate (8 + fuel) (idle loc cs)) in
  stored CACHE_NAME q (storage m) = stored CACHE_NAME q cs.
Proof.
  intros m.
  pose proof (activation_run cs loc fuel sched (length (old_keys cs) + 2) _
                (or_introl (conj eq_refl eq_refl))) as H.
  fold m in H. unfold activation in H.
  destruct H as [[_ ->] | [(R & _ & _ & Hpg) | [[_ Hcl] | [_ Hac]]]].
  - by rewrite activate_dispatched_storage.
  - by rewrite <- stored_current, (pg_current _ _ _ _ Hpg), stored_current.
  - by rewrite (cl_storage _ _ _ Hcl), stored_current.
  - by rewrite (ac_storage _ _ Hac), stored_current.
Qed.

(** Once the activation has completed, a lookup is answered by the current
    generation and by no other: what [caches.match] finds for a request is
    what the generation called [CACHE_NAME] held for it. *)
Theorem lookup_after_activation (cs : cache_storage) (loc : string -> request)
    (fuel : nat) (sched : list choice) (q : request) :
  NoDup (storage_keys cs) ->
  length (old_keys cs) + 2 <= length sched ->
  let m := run (8 + fuel) sched (dispatch_activate (8 + fuel) (idle loc cs)) in
  storage_match q (storage m) = stored CACHE_NAME q cs.
Proof.
  intros Hnd Hlen m.
  pose proof (activation_complete cs loc fuel sched Hlen) as Hac. fold m in Hac.
  rewrite (ac_storage _ _ Hac). by apply storage_match_current.
Qed.

(** ** Installation, then activation *)

Lemma install_run (loc : string -> request) (cs : cache_storage) (fuel : nat)
    (c1 c2 c3 : choice) (sched : list choice) (es : list (request * response)) :
  fetch_all (net c2) (requests_of loc PRECACHE_URLS) = Some es ->
  storage (run (8 + fuel) (c1 :: c2 :: c3 :: sched)
             (dispatch_install (8 + fuel) (idle loc cs)))
  = storage_put_all CACHE_NAME es (storage_open CACHE_NAME cs).
Proof.
  intros Hes. machine M HM. unfold dispatch_install in HM. mnorm HM. micro HM.
  step HM. micro HM. step HM. rewrite Hes in HM. mnorm HM. micro HM.
  step HM. micro HM. by finish HM.
Qed.

(** An installation whose precache fetches are all answered with a
    response [addAll] takes (an ok status other than 206), followed by a
    completed activation, leaves exactly one generation, the one called
    [CACHE_NAME], and it answers the lookup of every precache URL with the
    response the installation fetched. *)
Theorem install_then_activate (loc : string -> request) (cs : cache_storage)
    (fuel : nat) (c1 c2 c3 : choice) (sched sched' : list choice) :
  NoDup (storage_keys cs) ->
  (forall u, In u PRECACHE_URLS ->
     exists r, net c2 (loc u) = NetOk r /\ response_ok r = true /\
               status r <> 206%Z) ->
  length (old_keys cs) + 2 <= length sched' ->
  let m1 := run (8 + fuel) (c1 :: c2 :: c3 :: sched)
              (dispatch_install (8 + fuel) (idle loc cs)) in
  let m2 := run (8 + fuel) sched'
              (dispatch_activate (8 + fuel) (idle loc (storage m1))) in
  storage_keys (storage m2) = [CACHE_NAME] /\
  forall u, In u PRECACHE_URLS ->
    exists r, net c2 (loc u) = NetOk r /\ storage_match (loc u) (storage m2) = Some r.
Proof.
  intros Hnd Hok Hlen m1 m2.
  destruct (fetch_all_complete (net c2) (requests_of loc PRECACHE_URLS)) as [es Hes].
  { intros q Hq. unfold requests_of in Hq. apply in_map_iff in Hq as (u & <- & Hu).
    destruct (Hok u Hu) as (r & Hr & Hrok & Hrs). exists r.
    split; [done |]. by apply addable_ok. }
  pose proof (install_run loc cs fuel c1 c2 c3 sched es Hes) as H1. fold m1 in H1.
  assert (Hk1 : storage_keys (storage m1) = storage_keys (storage_open CACHE_NAME cs)).
  { by rewrite H1, storage_keys_put_all. }
  assert (Hnd1 : NoDup (storage_keys (storage m1))).
  { rewrite Hk1. by apply storage_keys_open. }
  assert (Hh1 : storage_has CACHE_NAME (storage m1) = true).
  { unfold storage_has. rewrite Hk1. apply storage_has_open. }
  assert (Hold1 : old_keys (storage m1) = old_keys cs).
  { unfold old_keys at 1. rewrite Hk1. apply old_keys_open. }
  assert (Hac : activated (storage m1) m2).
  { apply activation_complete. by rewrite Hold1. }
  rewrite (ac_storage _ _ Hac). split; [by apply current_exactly_one |].
  intros u Hu. rewrite storage_match_current by done.
  apply fetch_all_spec in Hes as [Hkeys Hes].
  assert (In (loc u) (map fst es)) as Hin.
  { rewrite Hkeys. unfold requests_of. by apply in_map. }
  apply in_map_iff in Hin as ([q r] & Hq & Hin). cbn in Hq. subst q.
  exists r. split.
  - rewrite Forall_forall in Hes. by apply list_elem_of_In, Hes in Hin as [? _].
  - rewrite H1. apply (stored_put_all CACHE_NAME (net c2) es _ (loc u, r)); [| | done].
    + apply storage_has_open.
    + eapply Forall_impl; [exact Hes |]. by intros ? [? _].
Qed.

(** ** What the activation starts *)

Lemma first_move_issued (loc : string -> request) (cs : cache_storage)
    (fuel : nat) (c : choice) :
  issued (trace (host_step (8 + fuel) c (dispatch_activate (8 + fuel) (idle loc cs)))) =
  (OpKeys :: map OpDelete (old_keys cs) ++
     if Nat.eqb (length (old_keys cs)) 0 then [OpClaim] else [])%list.
Proof.
  remember (host_step _ _ _) as M eqn:HM.
  unfold dispatch_activate in HM. mnorm HM. micro HM.
  erewrite host_step_at in HM by reflexivity.
  munfold HM. tcbn HM.
  erewrite drain_cons in HM by reflexivity.
  unfold run_job, exec, set_jobs in HM.
  cbn [on_fulfilled derived jobs promises pending alls answered storage trace location]
    in HM.
  unfold bind at 1 in HM. rewrite purge_run in HM. fold (old_keys cs) in HM.
  destruct (length (old_keys cs)) as [|n'] eqn:En.
  - munfold HM. acbn HM. amicro HM.
    apply nil_length_inv in En. rewrite En in HM. cbn in HM.
    subst M. by rewrite En.
  - munfold HM. acbn HM. rewrite lookup_map_seq_end in HM. acbn HM.
    rewrite insert_map_seq_end in HM. acbn HM. amicro HM.
    subst M. cbn [trace issued Nat.eqb]. by rewrite issued_deletes, app_nil_r.
Qed.

Lemma purging_move_issued (cs : cache_storage) (n : nat) (R : list (nat * string))
    (m : machine) (fuel : nat) (c : choice) :
  purging cs n R m -> R <> [] ->
  issued (trace (host_step (8 + fuel) c m)) =
  (issued (trace m) ++ if Nat.eqb (length R) 1 then [OpClaim] else [])%list.
Proof.
  intros [Hj Hp Hnd Hel Hth Hw Hall Hlen [vals Hcnt] Hcur Hold Hnc Hnw] Hne.
  destruct m as [P J Q A ans St Tr L]. cbn in *. subst J Q.
  destruct (extract_is_Some (pick c) R Hne) as ([p k] & R' & Hex).
  destruct (extract_spec _ _ _ _ Hex) as (R1 & R2 & HR & HR').
  destruct (Hel p k) as (Hp3 & Hk & i & HPp). { rewrite HR. apply in_elt. }
  assert (HlenR : length R = S (length R')). { rewrite HR, HR', !length_app. cbn. lia. }
  remember (host_step _ _ _) as M eqn:HM.
  erewrite host_step_at in HM; [| cbn [pending]; rewrite extract_map, Hex; reflexivity].
  munfold HM. rewrite HPp in HM. cbn [app map] in HM. unfold all_reaction in HM.
  erewrite drain_cons in HM by reflexivity. munfold HM.
  rewrite Hcnt, HlenR in HM. cbn [Nat.pred] in HM.
  rewrite HlenR.
  destruct R' as [|r' R''].
  - cbn [length Nat.eqb] in HM.
    rewrite list_lookup_insert_ne, Hall in HM by lia. cbn [app map] in HM.
    erewrite drain_cons in HM by reflexivity. munfold HM.
    rewrite list_lookup_insert_ne, list_lookup_insert_ne, Hth in HM by lia.
    cbn [app map] in HM. unfold claim_reaction in HM.
    erewrite drain_cons in HM by reflexivity. munfold HM.
    rewrite !length_insert, Hlen in HM.
    cbn [Nat.eqb] in HM. munfold HM.
    rewrite lookup_app_r in HM by (rewrite !length_insert; lia).
    rewrite !length_insert, Hlen, Nat.sub_diag in HM.
    cbn [lookup list_lookup] in HM. fold_table HM.
    rewrite insert_app_r_alt in HM by (rewrite !length_insert; lia).
    rewrite !length_insert, Hlen, Nat.sub_diag in HM.
    cbn [app insert list_insert] in HM. fold_table HM.
    rewrite drain_nil in HM by reflexivity.
    subst M. cbn [trace length Nat.eqb]. rewrite !issued_app. cbn. by rewrite app_nil_r.
  - cbn [length Nat.eqb] in HM. rewrite drain_nil in HM by reflexivity.
    subst M. cbn [trace length Nat.eqb]. rewrite !issued_app. cbn. done.
Qed.

Lemma claiming_move_issued (cs : cache_storage) (n : nat) (m : machine) (fuel : nat)
    (c : choice) :
  claiming cs n m -> issued (trace (host_step (8 + fuel) c m)) = issued (trace m).
Proof.
  intros [Hj Hp Hc Hw Hs Hcl Hnw].
  destruct m as [P J Q A ans St Tr L]. cbn in *. subst J Q.
  remember (host_step _ _ _) as M eqn:HM.
  erewrite host_step_at in HM by reflexivity.
  munfold HM. rewrite Hc in HM. cbn [app map] in HM.
  erewrite drain_cons in HM by reflexivity. munfold HM.
  rewrite list_lookup_insert_ne, Hw in HM by lia. cbn [app map] in HM.
  unfold extend_reaction in HM.
  erewrite drain_cons in HM by reflexivity. munfold HM.
  rewrite drain_nil in HM by reflexivity.
  subst M. cbn [trace]. rewrite !issued_app. cbn. by rewrite !app_nil_r.
Qed.

Lemma activation_order_move (cs : cache_storage) (loc : string -> request) (fuel k : nat)
    (m : machine) (c : choice) :
  activation_order cs loc (8 + fuel) k m ->
  activation_order cs loc (8 + fuel) (pred k) (host_step (8 + fuel) c m).
Proof.
  unfold activation_order.
  intros [[-> ->] | [(R & -> & Hne & Hpg & Hi) | [(-> & Hcl & Hi) | (-> & Hac & Hi)]]].
  - rewrite Nat.add_succ_r. cbn [pred].
    pose proof (first_move_issued loc cs fuel c) as Hi.
    destruct (activate_first_move loc cs fuel c)
      as [[? _] | [(R & HR & Hne & Hpg) | [[Hn Hcl] | [? _]]]]; [lia | | | lia].
    + right. left. exists R. split; [done |]. split; [done |]. split; [done |].
      rewrite Hi. destruct (length (old_keys cs)); [| by rewrite app_nil_r].
      destruct R; [done | cbn in HR; lia].
    + right. right. left. split; [done |]. split; [done |].
      rewrite Hi. by replace (length (old_keys cs)) with 0 by lia.
  - rewrite Nat.add_1_r. cbn [pred].
    pose proof (purging_move_issued cs _ R m fuel c Hpg Hne) as Hi'.
    destruct (purging_move cs _ R m fuel c Hpg Hne) as [(R' & Hlen & Hne' & Hpg') | [Hlen Hcl]].
    + right. left. exists R'. split; [lia |]. split; [done |]. split; [done |].
      rewrite Hi', Hi. destruct R'; [done |]. rewrite Hlen. cbn. by rewrite app_nil_r.
    + right. right. left. split; [lia |]. split; [done |].
      rewrite Hi', Hi, Hlen. reflexivity.
  - right. right. right. split; [done |]. split; [by eapply claiming_move |].
    by rewrite (claiming_move_issued cs _ m fuel c Hcl).
  - right. right. right. split; [done |].
    rewrite host_step_quiet by apply Hac. done.
Qed.

Lemma activation_order_run (cs : cache_storage) (loc : string -> request) (fuel : nat)
    (sched : list choice) (k : nat) (m : machine) :
  activation_order cs loc (8 + fuel) k m ->
  activation_order cs loc (8 + fuel) (k - length sched) (run (8 + fuel) sched m).
Proof.
  revert k m. induction sched as [|c sched IH]; intros k m H.
  - by rewrite Nat.sub_0_r.
  - rewrite run_cons. cbn [length].
    replace (k - S (length sched)) with (pred k - length sched) by lia.
    apply IH. by apply activation_order_move.
Qed.

(** Under every schedule the activation starts, in this order and nothing
    else: [caches.keys()]; one [caches.delete] for each name that differs
    from [CACHE_NAME], in the order [keys()] gave them; [clients.claim()].
    It starts no fetch, writes no entry and never deletes the generation
    called [CACHE_NAME]. *)
Theorem activate_order (cs : cache_storage) (loc : string -> request)
    (fuel : nat) (sched : list choice) :
  let m := run (8 + fuel) sched (dispatch_activate (8 + fuel) (idle loc cs)) in
  (issued (trace m) = [OpKeys] \/
   issued (trace m) = OpKeys :: map OpDelete (old_keys cs) \/
   issued (trace m) = (OpKeys :: map OpDelete (old_keys cs) ++ [OpClaim])%list) /\
  ~ In (OpDelete CACHE_NAME) (issued (trace m)) /\
  (1 <= length sched -> forall k, In k (storage_keys cs) -> k <> CACHE_NAME ->
     In (OpDelete k) (issued (trace m))).
Proof.
  intros m.
  assert (Hshape : issued (trace m) = [OpKeys] /\ sched = [] \/
                   issued (trace m) = OpKeys :: map OpDelete (old_keys cs) \/
                   issued (trace m) = (OpKeys :: map OpDelete (old_keys cs) ++ [OpClaim])%list).
  { pose proof (activation_order_run cs loc fuel sched (length (old_keys cs) + 2) _
                  (or_introl (conj eq_refl eq_refl))) as H.
    fold m in H. unfold activation_order in H.
    destruct H as [[Hk Hm] | [(R & _ & _ & _ & Hi) | [(_ & _ & Hi) | (_ & _ & Hi)]]];
      [| tauto | tauto | tauto].
    left. rewrite Hm, activate_dispatched. split; [done |].
    destruct sched; [done | cbn in Hk; lia]. }
  assert (Hold : forall k, In (OpDelete k) (map OpDelete (old_keys cs)) <->
                           In k (storage_keys cs) /\ k <> CACHE_NAME).
  { intros k. rewrite in_map_iff. unfold old_keys. split.
    - intros (k' & [= ->] & [Hin Hne]%filter_In). split; [done |].
      apply negb_true_iff, String.eqb_neq in Hne. done.
    - intros [Hin Hne]. exists k. split; [done |]. apply filter_In. split; [done |].
      by apply negb_true_iff, String.eqb_neq. }
  split; [tauto |]. split.
  - intros Hin.
    assert (In (OpDelete CACHE_NAME) (map OpDelete (old_keys cs))) as Hd; [| apply Hold in Hd; tauto].
    destruct Hshape as [[Hi _] | [Hi | Hi]]; rewrite Hi in Hin; cbn in Hin.
    + intuition discriminate.
    + intuition discriminate.
    + destruct Hin as [? | Hin]; [discriminate |].
      apply in_app_iff in Hin as [? | [? | []]]; [done | discriminate].
  - intros Hlen k Hk Hne.
    assert (In (OpDelete k) (map OpDelete (old_keys cs))) as Hd by (apply Hold; tauto).
    destruct Hshape as [[_ ->] | [Hi | Hi]]; [cbn in Hlen; lia | |]; rewrite Hi.
    + by right.
    + right. apply in_app_iff. by left.
Qed.

(** * Sample runs *)

(** C3 on a request to [stats.goatcounter.com] with the network down. *)
Lemma bypass_network_only_witness :
  (exists pre, hostname counter_request = pre ++ ".goatcounter.com") /\
  storage (run 8 [offline] (dispatch_fetch 8 0 counter_request (idle origin one_generation)))
  = one_generation /\
  delivered 0 (trace (run 8 [offline]
                        (dispatch_fetch 8 0 counter_request (idle origin one_generation))))
  = Some NetworkError.
Proof.
  assert (H : exists pre, hostname counter_request = pre ++ ".goatcounter.com").
  { exists "stats". reflexivity. }
  split; [exact H |].
  destruct (bypass_network_only origin one_generation 8 0 counter_request [offline]
              (or_intror H)) as (Hs & _ & _ & Hd).
  split; [exact Hs |]. exact (proj2 (Hd offline [] eq_refl)).
Defined.

(** C1 on the stylesheet request: the listener has started the lookup only. *)
Lemma fetch_follows_lookup_witness :
  (classify css_request = RevalidateCss \/ classify css_request = RevalidateDefault) /\
  issued (trace (dispatch_fetch 8 0 css_request (idle origin []))) = [OpMatch css_request].
Proof.
  assert (H : classify css_request = RevalidateCss \/
              classify css_request = RevalidateDefault) by (left; reflexivity).
  split; [exact H |].
  exact (proj1 (fetch_follows_lookup origin [] 0 0 css_request offline H)).
Defined.

(** C2 on the font request, nothing cached, network down: a rejection. *)
Lemma failed_fetch_handling_witness :
  net offline font_request = NetFail "offline" /\
  handler_result 0 (trace (run 8 [offline; offline]
                             (dispatch_fetch 8 0 font_request (idle origin []))))
  = Some (Reject (VErr "offline")).
Proof.
  split; [reflexivity |].
  destruct (failed_fetch_handling origin [] 0 0 font_request offline offline []
              "offline" eq_refl) as (_ & _ & H).
  apply H; [left |]; reflexivity.
Defined.

(** C4 on a timetable of the site, the network answering. *)
Lemma network_first_witness :
  ((exists pre, pathname data_request = pre ++ ".csv") \/
   (exists a b, pathname data_request = a ++ "/latest/" ++ b)) /\
  hostname data_request <> "gc.zgo.at" /\
  ~ (exists pre, hostname data_request = pre ++ ".goatcounter.com") /\
  hostname data_request <> "fonts.gstatic.com" /\
  hostname data_request <> "fonts.googleapis.com" /\
  status fresh <> 206%Z /\
  stored CACHE_NAME data_request
    (storage (run 8 [answers fresh; answers fresh; answers fresh]
                (dispatch_fetch 8 0 data_request (idle origin []))))
  = Some fresh.
Proof.
  assert (H0 : (exists pre, pathname data_request = pre ++ ".csv") \/
               (exists a b, pathname data_request = a ++ "/latest/" ++ b)).
  { left. exists "/data/mosques/times". reflexivity. }
  assert (H1 : hostname data_request <> "gc.zgo.at") by discriminate.
  assert (H2 : ~ (exists pre, hostname data_request = pre ++ ".goatcounter.com")).
  { intros H. apply ends_with_spec in H. vm_compute in H. discriminate. }
  assert (H3 : hostname data_request <> "fonts.gstatic.com") by discriminate.
  assert (H4 : hostname data_request <> "fonts.googleapis.com") by discriminate.
  assert (Hs : status fresh <> 206%Z) by discriminate.
  repeat (split; [assumption |]).
  destruct (network_first origin [] 0 0 data_request (answers fresh) (answers fresh)
              (answers fresh) [] H0 H1 H2 H3 H4) as (_ & H & _).
  exact (proj1 (proj2 (proj2 (H fresh eq_refl))) Hs).
Defined.

(** C7 on a font whose path ends in [.csv]: one fetch for two requests. *)
Lemma cache_first_witness :
  hostname font_request = "fonts.gstatic.com" /\
  status fresh <> 206%Z /\
  fetches (trace (run 8 [offline]
    (dispatch_fetch 8 1 font_request
      (run 8 [answers fresh; answers fresh; answers fresh; answers fresh]
         (dispatch_fetch 8 0 font_request (idle origin []))))))
  = [OpFetch font_request].
Proof.
  assert (Hs : status fresh <> 206%Z) by discriminate.
  split; [reflexivity |]. split; [exact Hs |].
  destruct (cache_first origin [] 0 0 1 font_request (answers fresh) (answers fresh)
              (answers fresh) (answers fresh) offline [] [] eq_refl) as [_ H].
  destruct (H fresh eq_refl eq_refl) as (_ & _ & _ & Hok & _).
  exact (proj2 (proj2 (Hok Hs))).
Defined.

(** C8 on a cached page: the stale page is returned, the fresh one stored. *)
Lemma stale_while_revalidate_witness :
  (classify page_request = RevalidateCss \/ classify page_request = RevalidateDefault) /\
  storage_match page_request one_generation = Some stale /\
  status fresh <> 206%Z /\
  handler_result 0 (trace (run 8 [offline] (dispatch_fetch 8 0 page_request
                                              (idle origin one_generation))))
  = Some (Fulfil (VResp stale)) /\
  stored CACHE_NAME page_request
    (storage (run 8 [answers fresh; answers fresh; answers fresh; answers fresh]
                (dispatch_fetch 8 0 page_request (idle origin one_generation))))
  = Some fresh.
Proof.
  assert (H : classify page_request = RevalidateCss \/
              classify page_request = RevalidateDefault) by (right; reflexivity).
  assert (Hc : storage_match page_request one_generation = Some stale)
    by (vm_compute; reflexivity).
  assert (Hs : status fresh <> 206%Z) by discriminate.
  split; [exact H |]. split; [exact Hc |]. split; [exact Hs |].
  split.
  - exact (proj1 (proj1 (stale_while_revalidate origin one_generation 0 0 page_request
             offline offline offline offline [] stale H Hc))).
  - destruct (proj2 (stale_while_revalidate origin one_generation 0 0 page_request
             (answers fresh) (answers fresh) (answers fresh) (answers fresh) [] stale H Hc)
             fresh eq_refl) as (_ & Hok & _).
    exact (proj1 (Hok Hs)).
Defined.


(** C10 with an older generation holding the page. *)
Lemma writes_current_reads_all_witness :
  classify page_request = RevalidateDefault /\
  handler_result 0 (trace (run 8 [offline] (dispatch_fetch 8 0 page_request
                                              (idle origin two_generations))))
  = Some (Fulfil (VResp stale)).
Proof.
  split; [reflexivity |].
  destruct (writes_current_reads_all origin two_generations 0 0 page_request [offline])
    as (_ & _ & _ & _ & H).
  refine (H "salahdaily-v0" {[ page_request := stale ]} [(CACHE_NAME, ∅)] stale offline []
            eq_refl _ eq_refl (or_intror (or_intror eq_refl))).
  vm_compute. reflexivity.
Defined.

(** C5 with every precache fetch answered. *)
Lemma install_all_or_nothing_witness :
  (forall u, In u PRECACHE_URLS ->
     exists r, net (answers fresh) (origin u) = NetOk r /\ response_ok r = true /\
               status r <> 206%Z) /\
  In (EvLifetime Install (Fulfil VUndef))
     (trace (run 8 [answers fresh; answers fresh; answers fresh]
               (dispatch_install 8 (idle origin [])))).
Proof.
  assert (H : forall u, In u PRECACHE_URLS ->
            exists r, net (answers fresh) (origin u) = NetOk r /\ response_ok r = true /\
                      status r <> 206%Z).
  { intros u _. exists fresh. split; [reflexivity |]. split; [reflexivity | discriminate]. }
  split; [exact H |].
  destruct (install_all_or_nothing origin [] 0
              [answers fresh; answers fresh; answers fresh]) as (_ & Hok & _).
  exact (proj1 (Hok _ _ _ [] eq_refl H)).
Defined.

(** C6 with one older generation: three settlements complete the activation. *)
Lemma activate_purges_then_claims_witness :
  length (old_keys two_generations) + 2 <= length [offline; offline; offline] /\
  NoDup (storage_keys two_generations) /\
  In (EvLifetime Activate (Fulfil VUndef))
     (trace (run 8 [offline; offline; offline]
               (dispatch_activate 8 (idle origin two_generations)))) /\
  length (storage (run 8 [offline; offline; offline]
                     (dispatch_activate 8 (idle origin two_generations)))) <= 1.
Proof.
  assert (H : length (old_keys two_generations) + 2 <= length [offline; offline; offline]).
  { vm_compute. lia. }
  assert (Hnd : NoDup (storage_keys two_generations)).
  { apply (bool_decide_unpack _). vm_compute. reflexivity. }
  split; [exact H |]. split; [exact Hnd |].
  destruct (activate_purges_then_claims two_generations origin 0
              [offline; offline; offline]) as (_ & _ & Hdone).
  destruct (Hdone H) as (Hd & _ & Hone).
  split; [exact Hd | exact (Hone Hnd)].
Defined.

(** A font request is answered by the worker. *)
Lemma router_answers_witness :
  classify font_request <> Bypass /\
  answered (dispatch_fetch 8 0 font_request (idle origin [])) = true.
Proof.
  assert (H : classify font_request <> Bypass).
  { intros H. vm_compute in H. discriminate. }
  split; [exact H |].
  exact (proj1 (router_answers origin [] 0 0 font_request [] H)).
Defined.

(** With the network down the storage stays as it was. *)
Lemma router_frame_witness :
  (forall c r, In c [offline; offline] -> net c page_request <> NetOk r) /\
  storage (run 8 [offline; offline] (dispatch_fetch 8 0 page_request
                                       (idle origin one_generation)))
  = one_generation.
Proof.
  assert (H : forall c r, In c [offline; offline] -> net c page_request <> NetOk r).
  { intros c r [<- | [<- | []]]; discriminate. }
  split; [exact H |].
  exact (proj2 (router_frame origin one_generation 0 0 page_request [offline; offline]) H).
Defined.

(** A timetable the network answers: no lookup. *)
Lemma network_first_skips_cache_witness :
  classify data_request = NetworkFirst /\
  net (answers fresh) data_request = NetOk fresh /\
  ~ In (OpMatch data_request)
       (issued (trace (run 8 [answers fresh; answers fresh]
                         (dispatch_fetch 8 0 data_request (idle origin []))))).
Proof.
  split; [reflexivity |]. split; [reflexivity |].
  exact (network_first_skips_cache origin [] 0 0 data_request (answers fresh)
           [answers fresh] fresh eq_refl eq_refl data_request).
Defined.

(** A timetable is delivered while the storage is still empty. *)
Lemma served_before_stored_witness :
  classify data_request = NetworkFirst /\
  net (answers fresh) data_request = NetOk fresh /\
  delivered 0 (trace (run 8 [answers fresh]
                        (dispatch_fetch 8 0 data_request (idle origin []))))
  = Some (Served fresh) /\
  storage (run 8 [answers fresh] (dispatch_fetch 8 0 data_request (idle origin []))) = [].
Proof.
  split; [reflexivity |]. split; [reflexivity |].
  destruct (proj1 (served_before_stored origin [] 0 0 data_request (answers fresh)
                     offline fresh) eq_refl eq_refl) as (Hd & Hs & _).
  split; [exact Hd | exact Hs].
Defined.

(** A page that is not cached, with the network down. *)
Lemma nothing_cached_network_down_witness :
  classify page_request <> Bypass /\
  storage_match page_request [] = None /\
  net offline page_request = NetFail "offline" /\
  delivered 0 (trace (run 8 [offline; offline]
                        (dispatch_fetch 8 0 page_request (idle origin []))))
  = Some NetworkError.
Proof.
  assert (H : classify page_request <> Bypass).
  { intros H. vm_compute in H. discriminate. }
  split; [exact H |]. split; [reflexivity |]. split; [reflexivity |].
  exact (proj1 (nothing_cached_network_down origin [] 0 0 page_request offline offline []
                  "offline" "offline" H eq_refl eq_refl eq_refl)).
Defined.

(** The page of the current generation, revalidated, then asked for again. *)
Lemma revalidation_visible_witness :
  (classify page_request = RevalidateCss \/ classify page_request = RevalidateDefault) /\
  (forall k c, In (k, c) one_generation -> k <> CACHE_NAME -> c !! page_request = None) /\
  net (answers fresh) page_request = NetOk fresh /\
  status fresh <> 206%Z /\
  1 <> 0 /\
  handler_result 1
    (trace (run 8 [offline]
              (dispatch_fetch 8 1 page_request
                 (run 8 [answers fresh; answers fresh; answers fresh; answers fresh]
                    (dispatch_fetch 8 0 page_request (idle origin one_generation))))))
  = Some (Fulfil (VResp fresh)).
Proof.
  assert (H : classify page_request = RevalidateCss \/
              classify page_request = RevalidateDefault) by (right; reflexivity).
  assert (Hold : forall k c, In (k, c) one_generation -> k <> CACHE_NAME ->
                             c !! page_request = None).
  { intros k c [[= <- <-] | []] Hk. by destruct Hk. }
  assert (Hev : 1 <> 0) by lia.
  assert (Hs : status fresh <> 206%Z) by discriminate.
  split; [exact H |]. split; [exact Hold |]. split; [reflexivity |]. split; [exact Hs |].
  split; [exact Hev |].
  exact (proj1 (revalidation_visible origin one_generation 0 0 1 page_request
                  (answers fresh) (answers fresh) (answers fresh) (answers fresh) offline
                  [] [] fresh H Hold eq_refl Hs Hev)).
Defined.

(** The page held by an older generation that is not the first of the
    storage, revalidated, then asked for again. *)
Lemma revalidation_shadowed_witness :
  (classify page_request = RevalidateCss \/ classify page_request = RevalidateDefault) /\
  Forall (fun kc : string * cache => kc.1 <> CACHE_NAME) [("workbox", ∅)] /\
  "salahdaily-v0" <> CACHE_NAME /\
  ({[ page_request := stale ]} : cache) !! page_request = Some stale /\
  net (answers fresh) page_request = NetOk fresh /\
  handler_result 1
    (trace (run 8 [offline]
              (dispatch_fetch 8 1 page_request
                 (run 8 [answers fresh; answers fresh; answers fresh; answers fresh]
                    (dispatch_fetch 8 0 page_request (idle origin three_generations))))))
  = Some (Fulfil (VResp stale)).
Proof.
  assert (H : classify page_request = RevalidateCss \/
              classify page_request = RevalidateDefault) by (right; reflexivity).
  assert (Hpre : Forall (fun kc : string * cache => kc.1 <> CACHE_NAME) [("workbox", ∅)]).
  { repeat constructor. discriminate. }
  assert (Hk : "salahdaily-v0" <> CACHE_NAME) by discriminate.
  assert (Hc : ({[ page_request := stale ]} : cache) !! page_request = Some stale)
    by (vm_compute; reflexivity).
  split; [exact H |]. split; [exact Hpre |]. split; [exact Hk |]. split; [exact Hc |].
  split; [reflexivity |].
  destruct (revalidation_shadowed origin [("workbox", ∅)] "salahdaily-v0"
              {[ page_request := stale ]} [(CACHE_NAME, ∅)] 0 0 1 page_request
              (answers fresh) (answers fresh) (answers fresh) (answers fresh) offline
              [] stale fresh H Hpre Hk Hc eq_refl) as (old & Hm & _ & Hr).
  vm_compute in Hm. injection Hm as <-.
  apply Hr. lia.
Defined.

(** An installation with every precache URL answered by a 404. *)
Lemma install_rejects_not_ok_witness :
  In "./index.html" PRECACHE_URLS /\
  net (answers missing) (origin "./index.html") = NetOk missing /\
  response_ok missing = false /\
  In (EvLifetime Install (Reject (VErr "TypeError")))
     (trace (run 8 [answers missing; answers missing]
               (dispatch_install 8 (idle origin [])))).
Proof.
  assert (H : In "./index.html" PRECACHE_URLS) by (right; left; reflexivity).
  split; [exact H |]. split; [reflexivity |]. split; [reflexivity |].
  exact (proj1 (install_rejects_not_ok origin [] 0 (answers missing) (answers missing) []
                  "./index.html" missing H eq_refl eq_refl)).
Defined.

(** Three settlements settle an installation. *)
Lemma install_order_witness :
  3 <= length [offline; offline; offline] /\
  pending (run 8 [offline; offline; offline] (dispatch_install 8 (idle origin []))) = [].
Proof.
  assert (H : 3 <= length [offline; offline; offline]) by (cbn; lia).
  split; [exact H |].
  destruct (install_order origin [] 0 [offline; offline; offline]) as (_ & _ & _ & Hl).
  exact (proj1 (Hl H)).
Defined.

(** After activation the page of the older generation is not found. *)
Lemma lookup_after_activation_witness :
  NoDup (storage_keys two_generations) /\
  length (old_keys two_generations) + 2 <= length [offline; offline; offline] /\
  storage_match page_request
    (storage (run 8 [offline; offline; offline]
                (dispatch_activate 8 (idle origin two_generations))))
  = stored CACHE_NAME page_request two_generations.
Proof.
  assert (Hnd : NoDup (storage_keys two_generations)).
  { apply (bool_decide_unpack _). vm_compute. reflexivity. }
  assert (H : length (old_keys two_generations) + 2 <= length [offline; offline; offline]).
  { vm_compute. lia. }
  split; [exact Hnd |]. split; [exact H |].
  exact (lookup_after_activation two_generations origin 0 [offline; offline; offline]
           page_request Hnd H).
Defined.

(** Installing over two generations, then activating. *)
Lemma install_then_activate_witness :
  NoDup (storage_keys two_generations) /\
  (forall u, In u PRECACHE_URLS ->
     exists r, net (answers fresh) (origin u) = NetOk r /\ response_ok r = true /\
               status r <> 206%Z) /\
  length (old_keys two_generations) + 2 <= length [offline; offline; offline] /\
  storage_keys
    (storage (run 8 [offline; offline; offline]
       (dispatch_activate 8
          (idle origin
             (storage (run 8 [answers fresh; answers fresh; answers fresh]
                         (dispatch_install 8 (idle origin two_generations))))))))
  = [CACHE_NAME].
Proof.
  assert (Hnd : NoDup (storage_keys two_generations)).
  { apply (bool_decide_unpack _). vm_compute. reflexivity. }
  assert (Hok : forall u, In u PRECACHE_URLS ->
            exists r, net (answers fresh) (origin u) = NetOk r /\ response_ok r = true /\
                      status r <> 206%Z).
  { intros u _. exists fresh. split; [reflexivity |]. split; [reflexivity | discriminate]. }
  assert (H : length (old_keys two_generations) + 2 <= length [offline; offline; offline]).
  { vm_compute. lia. }
  split; [exact Hnd |]. split; [exact Hok |]. split; [exact H |].
  exact (proj1 (install_then_activate origin two_generations 0 (answers fresh)
                  (answers fresh) (answers fresh) [] [offline; offline; offline]
                  Hnd Hok H)).
Defined.

(** The older generation is deleted. *)
Lemma activate_order_witness :
  1 <= length [offline] /\
  In "salahdaily-v0" (storage_keys two_generations) /\
  "salahdaily-v0" <> CACHE_NAME /\
  In (OpDelete "salahdaily-v0")
     (issued (trace (run 8 [offline] (dispatch_activate 8 (idle origin two_generations))))).
Proof.
  assert (H : 1 <= length [offline]) by (cbn; lia).
  assert (Hin : In "salahdaily-v0" (storage_keys two_generations)) by (left; reflexivity).
  assert (Hk : "salahdaily-v0" <> CACHE_NAME) by discriminate.
  split; [exact H |]. split; [exact Hin |]. split; [exact Hk |].
  destruct (activate_order two_generations origin 0 [offline]) as (_ & _ & Hd).
  exact (Hd H "salahdaily-v0" Hin Hk).
Defined.
